(** * AuditTrail: a shallow embedding of the ledger contract

    Source: [smart-contracts/contracts/AuditTrail.sol].

    The contract state is a record of finite maps; every Solidity [mapping]
    is a [gmap] read with the Solidity default of its value type.  External
    functions that write are computations in a state-and-failure monad whose
    failure keeps the state reached at the failing statement; [call] is the
    transaction boundary of the EVM, which discards that state on a revert.
    [view] functions read the state and return a result or a revert.

    Strings are compared by [keccak256] in the source and string-keyed
    mappings hash their key; both are modelled by equality of the strings
    (a collision-free hash).  Addresses, [uint256] and [bytes32] values are
    integers; the two counters are incremented with the overflow check of
    Solidity 0.8.  The contract inherits from OpenZeppelin's [Ownable],
    [ReentrancyGuard] and [Pausable], whose modifiers and functions are
    modelled next to the contract's own. *)

From Stdlib Require Import ZArith NArith Ascii String List Lia Bool.
From stdpp Require Import gmap strings list fin_maps.

Local Open Scope string_scope.
Local Open Scope list_scope.
Local Open Scope Z_scope.

(** ** Data model *)

Abbreviation address := Z (only parsing).
Abbreviation uint256 := Z (only parsing).
Abbreviation bytes32 := Z (only parsing).

Definition MAX_UINT256 : Z := 2 ^ 256 - 1.

(** [struct Transaction] *)
Record Transaction := mkTransaction {
  tokenId : string;
  smeAddress : address;
  timestamp : uint256;
  transactionType : string;
  amount : uint256;
  dataHash : bytes32;
  ipfsHash : string;
  isVerified : bool
}.

(** A [Transaction memory] local that is declared and never assigned. *)
Definition emptyTx : Transaction :=
  mkTransaction "" 0 0 "" 0 0 "" false.

Inductive Event :=
| TransactionLogged (tokenId : string) (sme : address) (timestamp : uint256)
    (dataHash : bytes32) (transactionType : string) (amount : uint256)
| SMEAuthorized (sme : address) (status : bool)
| TransactionVerified (tokenId : string) (verifier : address)
| OwnershipTransferred (previousOwner newOwner : address)
| Paused (account : address)
| Unpaused (account : address).

(** Storage of the contract, with the inherited variables of [Ownable],
    [ReentrancyGuard] and [Pausable], and the log of emitted events. *)
Record State := mkState {
  auditTrails : gmap Z (list Transaction);
  tokenExists : gmap string bool;
  authorizedSMEs : gmap Z bool;
  tokenToSME : gmap string Z;
  transactionCounts : gmap Z Z;
  totalTransactions : uint256;
  _owner : address;
  _status : uint256;
  _paused : bool;
  events : list Event
}.

(** Reading [m[k]]: an absent key reads as the default of the value type. *)
Definition mget {K V} `{Countable K} (d : V) (m : gmap K V) (k : K) : V :=
  default d (m !! k).

Definition set_auditTrails (v : gmap Z (list Transaction)) (st : State) : State :=
  mkState v (tokenExists st) (authorizedSMEs st) (tokenToSME st)
    (transactionCounts st) (totalTransactions st) (_owner st) (_status st)
    (_paused st) (events st).

Definition set_tokenExists (v : gmap string bool) (st : State) : State :=
  mkState (auditTrails st) v (authorizedSMEs st) (tokenToSME st)
    (transactionCounts st) (totalTransactions st) (_owner st) (_status st)
    (_paused st) (events st).

Definition set_authorizedSMEs (v : gmap Z bool) (st : State) : State :=
  mkState (auditTrails st) (tokenExists st) v (tokenToSME st)
    (transactionCounts st) (totalTransactions st) (_owner st) (_status st)
    (_paused st) (events st).

Definition set_tokenToSME (v : gmap string Z) (st : State) : State :=
  mkState (auditTrails st) (tokenExists st) (authorizedSMEs st) v
    (transactionCounts st) (totalTransactions st) (_owner st) (_status st)
    (_paused st) (events st).

Definition set_transactionCounts (v : gmap Z Z) (st : State) : State :=
  mkState (auditTrails st) (tokenExists st) (authorizedSMEs st) (tokenToSME st)
    v (totalTransactions st) (_owner st) (_status st) (_paused st) (events st).

Definition set_totalTransactions (v : uint256) (st : State) : State :=
  mkState (auditTrails st) (tokenExists st) (authorizedSMEs st) (tokenToSME st)
    (transactionCounts st) v (_owner st) (_status st) (_paused st) (events st).

Definition set_owner (v : address) (st : State) : State :=
  mkState (auditTrails st) (tokenExists st) (authorizedSMEs st) (tokenToSME st)
    (transactionCounts st) (totalTransactions st) v (_status st) (_paused st)
    (events st).

Definition set_status (v : uint256) (st : State) : State :=
  mkState (auditTrails st) (tokenExists st) (authorizedSMEs st) (tokenToSME st)
    (transactionCounts st) (totalTransactions st) (_owner st) v (_paused st)
    (events st).

Definition set_paused (v : bool) (st : State) : State :=
  mkState (auditTrails st) (tokenExists st) (authorizedSMEs st) (tokenToSME st)
    (transactionCounts st) (totalTransactions st) (_owner st) (_status st) v
    (events st).

Definition add_event (e : Event) (st : State) : State :=
  mkState (auditTrails st) (tokenExists st) (authorizedSMEs st) (tokenToSME st)
    (transactionCounts st) (totalTransactions st) (_owner st) (_status st)
    (_paused st) (events st ++ [e]).

(** ** Failure, results and the transaction monad *)

(** [Revert] carries the reason string of a failed [require]; [Panic] the
    code of a failed built-in check (0x11 arithmetic overflow, 0x32 array
    index out of bounds). *)
Inductive Error :=
| Revert (reason : string)
| Panic (code : Z).

(** Result of a [view] function. *)
Definition Result (A : Type) : Type := Error + A.

#[export] Instance Result_ret : MRet Result := fun _ a => inr a.
#[export] Instance Result_bind : MBind Result := fun _ _ f r =>
  match r with
  | inl e => inl e
  | inr a => f a
  end.

Definition requireR (cond : bool) (reason : string) : Result unit :=
  if cond then inr tt else inl (Revert reason).

(** Outcome of running a writing function: on [Failure] the state is the one
    reached when the failing statement ran. *)
Inductive Outcome (A : Type) :=
| Success (a : A) (st : State)
| Failure (e : Error) (st : State).
Arguments Success {A} a st.
Arguments Failure {A} e st.

Definition M (A : Type) : Type := State -> Outcome A.

#[export] Instance M_ret : MRet M := fun _ a st => Success a st.
#[export] Instance M_bind : MBind M := fun _ _ f m st =>
  match m st with
  | Success a st' => f a st'
  | Failure e st' => Failure e st'
  end.

Definition get : M State := fun st => Success st st.
Definition modify (f : State -> State) : M unit := fun st => Success tt (f st).
Definition fail {A} (e : Error) : M A := fun st => Failure e st.
Definition lift {A} (r : Result A) : M A :=
  match r with
  | inl e => fail e
  | inr a => mret a
  end.
Definition require (cond : bool) (reason : string) : M unit :=
  lift (requireR cond reason).
Definition emit (e : Event) : M unit := modify (add_event e).

(** The transaction boundary: a failed call leaves the state it started
    from. *)
Definition call {A} (m : M A) (st : State) : State * Result A :=
  match m st with
  | Success a st' => (st', inr a)
  | Failure e _ => (st, inl e)
  end.

(** Checked [x++] of Solidity 0.8. *)
Definition checked_inc (x : uint256) : Result uint256 :=
  if x + 1 <=? MAX_UINT256 then inr (x + 1) else inl (Panic 17).

(** Execution context of a call: [msg.sender] and [block.timestamp]. *)
Record Env := mkEnv {
  msg_sender : address;
  block_timestamp : uint256
}.

(** ** The imported OpenZeppelin contracts *)

Definition NOT_ENTERED : uint256 := 1.
Definition ENTERED : uint256 := 2.

(** Modelled from the spec: [Ownable.onlyOwner] of the imported
    [@openzeppelin/contracts/access/Ownable.sol], which is not part of the
    repository; administrative operations are "callable only by the
    administrator identity", and the revert reason is the one the
    repository's tests expect. *)
Definition onlyOwner {A} (env : Env) (body : M A) : M A :=
  st ← get;
  require (bool_decide (_owner st = msg_sender env))
    "Ownable: caller is not the owner";;
  body.

(** Modelled from the spec: [ReentrancyGuard.nonReentrant] of the imported
    [@openzeppelin/contracts/security/ReentrancyGuard.sol], which is not part
    of the repository; each call is "an atomic, all-or-nothing state
    transition", the guard refuses to enter while a guarded call is running. *)
Definition nonReentrant {A} (body : M A) : M A :=
  st ← get;
  require (negb (bool_decide (_status st = ENTERED)))
    "ReentrancyGuard: reentrant call";;
  modify (set_status ENTERED);;
  r ← body;
  modify (set_status NOT_ENTERED);;
  mret r.

(** Modelled from the spec: [Pausable.whenNotPaused] of the imported
    [@openzeppelin/contracts/security/Pausable.sol], which is not part of the
    repository; "while paused, append is rejected for all callers", with the
    revert reason the repository's tests expect. *)
Definition whenNotPaused {A} (body : M A) : M A :=
  st ← get;
  require (negb (_paused st)) "Pausable: paused";;
  body.

(** Modelled from the spec: [Pausable.whenPaused], the guard of [_unpause]
    in the imported [Pausable.sol]. *)
Definition whenPaused {A} (body : M A) : M A :=
  st ← get;
  require (_paused st) "Pausable: not paused";;
  body.

(** Modelled from the spec: [Pausable._pause] of the imported
    [Pausable.sol]: sets the pause flag and emits [Paused]. *)
Definition _pause (env : Env) : M unit :=
  whenNotPaused (
    modify (set_paused true);;
    emit (Paused (msg_sender env))).

(** Modelled from the spec: [Pausable._unpause] of the imported
    [Pausable.sol]: clears the pause flag and emits [Unpaused]. *)
Definition _unpause (env : Env) : M unit :=
  whenPaused (
    modify (set_paused false);;
    emit (Unpaused (msg_sender env))).

(** Modelled from the spec: [Ownable._transferOwnership] of the imported
    [Ownable.sol]: the "single administrative identity" is replaced. *)
Definition _transferOwnership (newOwner : address) : M unit :=
  st ← get;
  modify (set_owner newOwner);;
  emit (OwnershipTransferred (_owner st) newOwner).

(** Modelled from the spec: [Ownable.transferOwnership], inherited external
    function of the imported [Ownable.sol]. *)
Definition transferOwnership (env : Env) (newOwner : address) : M unit :=
  onlyOwner env (
    require (negb (bool_decide (newOwner = 0)))
      "Ownable: new owner is the zero address";;
    _transferOwnership newOwner).

(** Modelled from the spec: [Ownable.renounceOwnership], inherited external
    function of the imported [Ownable.sol]. *)
Definition renounceOwnership (env : Env) : M unit :=
  onlyOwner env (_transferOwnership 0).

(** ** Modifiers of AuditTrail *)

Definition onlyAuthorizedSME {A} (env : Env) (body : M A) : M A :=
  st ← get;
  require (mget false (authorizedSMEs st) (msg_sender env))
    "AuditTrail: Not authorized SME";;
  body.

Definition validTokenIdR (_tokenId : string) : Result unit :=
  requireR (0 <? Z.of_nat (String.length _tokenId))
    "AuditTrail: Token ID cannot be empty";;
  requireR (Z.of_nat (String.length _tokenId) <=? 64)
    "AuditTrail: Token ID too long".

Definition validTokenId {A} (_tokenId : string) (body : M A) : M A :=
  lift (validTokenIdR _tokenId);; body.

Definition validAmount {A} (_amount : uint256) (body : M A) : M A :=
  require (0 <? _amount) "AuditTrail: Amount must be greater than zero";;
  body.

(** ** Constructor and writing functions *)

(** State after deployment by [deployer]: the base constructors run first
    ([Ownable] makes the deployer the owner), then the body authorizes the
    deployer. *)
Definition constructor (deployer : address) : State :=
  mkState ∅ ∅ {[ deployer := true ]} ∅ ∅ 0 deployer NOT_ENTERED false
    [OwnershipTransferred 0 deployer; SMEAuthorized deployer true].

Definition authorizeSME (env : Env) (_sme : address) (_status : bool) : M unit :=
  onlyOwner env (
    require (negb (bool_decide (_sme = 0))) "AuditTrail: Invalid SME address";;
    modify (fun st => set_authorizedSMEs (<[_sme := _status]> (authorizedSMEs st)) st);;
    emit (SMEAuthorized _sme _status)).

Definition logTransaction (env : Env) (_tokenId _transactionType : string)
    (_amount : uint256) (_dataHash : bytes32) (_ipfsHash : string) : M bool :=
  onlyAuthorizedSME env (
  nonReentrant (
  whenNotPaused (
  validTokenId _tokenId (
  validAmount _amount (
    st ← get;
    require (negb (mget false (tokenExists st) _tokenId))
      "AuditTrail: Token already exists";;
    require (negb (bool_decide (_dataHash = 0)))
      "AuditTrail: Invalid data hash";;
    require (0 <? Z.of_nat (String.length _transactionType))
      "AuditTrail: Transaction type required";;
    require (0 <? Z.of_nat (String.length _ipfsHash))
      "AuditTrail: IPFS hash required";;
    let newTx := mkTransaction _tokenId (msg_sender env) (block_timestamp env)
                   _transactionType _amount _dataHash _ipfsHash true in
    modify (fun st => set_auditTrails
      (<[msg_sender env := mget [] (auditTrails st) (msg_sender env) ++ [newTx]]>
         (auditTrails st)) st);;
    modify (fun st => set_tokenExists (<[_tokenId := true]> (tokenExists st)) st);;
    modify (fun st => set_tokenToSME (<[_tokenId := msg_sender env]> (tokenToSME st)) st);;
    st ← get;
    c ← lift (checked_inc (mget 0 (transactionCounts st) (msg_sender env)));
    modify (fun st => set_transactionCounts
      (<[msg_sender env := c]> (transactionCounts st)) st);;
    st ← get;
    t ← lift (checked_inc (totalTransactions st));
    modify (set_totalTransactions t);;
    emit (TransactionLogged _tokenId (msg_sender env) (block_timestamp env)
            _dataHash _transactionType _amount);;
    mret true))))).

Definition pause (env : Env) : M unit := onlyOwner env (_pause env).

Definition unpause (env : Env) : M unit := onlyOwner env (_unpause env).

(** The [for] loop of [batchAuthorizeSMEs]: [n] iterations remain, the loop
    variable is [i]; an index outside an array is the built-in panic. *)
Fixpoint batchAuthorizeSMEs_loop (n : nat) (i : nat) (_smes : list Z)
    (_statuses : list bool) : M unit :=
  match n with
  | O => mret tt
  | S n' =>
    match _smes !! i, _statuses !! i with
    | Some sme, Some status =>
      require (negb (bool_decide (sme = 0))) "AuditTrail: Invalid SME address";;
      modify (fun st => set_authorizedSMEs (<[sme := status]> (authorizedSMEs st)) st);;
      emit (SMEAuthorized sme status);;
      batchAuthorizeSMEs_loop n' (S i) _smes _statuses
    | _, _ => fail (Panic 50)
    end
  end.

Definition batchAuthorizeSMEs (env : Env) (_smes : list Z)
    (_statuses : list bool) : M unit :=
  onlyOwner env (
    require (bool_decide (length _smes = length _statuses))
      "AuditTrail: Arrays length mismatch";;
    require (bool_decide (0 < length _smes)%nat) "AuditTrail: Empty arrays";;
    batchAuthorizeSMEs_loop (length _smes) 0 _smes _statuses).

(** ** View functions *)

Definition getAuditTrail (st : State) (_sme : address) : Result (list Transaction) :=
  requireR (negb (bool_decide (_sme = 0))) "AuditTrail: Invalid SME address";;
  mret (mget [] (auditTrails st) _sme).

(** The scan of [verifyToken] over the copied trail, first match wins. *)
Fixpoint verifyToken_scan (smeTransactions : list Transaction)
    (_tokenId : string) : bool * Transaction :=
  match smeTransactions with
  | [] => (false, emptyTx)
  | tx :: rest =>
    if String.eqb (tokenId tx) _tokenId then (true, tx)
    else verifyToken_scan rest _tokenId
  end.

Definition verifyToken (st : State) (_tokenId : string) (_sme : address)
    : Result (bool * Transaction) :=
  validTokenIdR _tokenId;;
  requireR (negb (bool_decide (_sme = 0))) "AuditTrail: Invalid SME address";;
  mret (verifyToken_scan (mget [] (auditTrails st) _sme) _tokenId).

Definition getTransactionCount (st : State) (_sme : address) : Result uint256 :=
  requireR (negb (bool_decide (_sme = 0))) "AuditTrail: Invalid SME address";;
  mret (mget 0 (transactionCounts st) _sme).

Definition verifyDataIntegrity (st : State) (_tokenId : string)
    (_sme : address) (_expectedHash : bytes32) : Result bool :=
  validTokenIdR _tokenId;;
  requireR (negb (bool_decide (_sme = 0))) "AuditTrail: Invalid SME address";;
  requireR (negb (bool_decide (_expectedHash = 0)))
    "AuditTrail: Invalid expected hash";;
  '(exists_, tx) ← verifyToken st _tokenId _sme;
  if negb exists_ then mret false
  else mret (bool_decide (dataHash tx = _expectedHash)).

Definition getTransactionByTokenId (st : State) (_tokenId : string)
    : Result (bool * Transaction) :=
  validTokenIdR _tokenId;;
  if negb (mget false (tokenExists st) _tokenId) then mret (false, emptyTx)
  else
    let smeAddress := mget 0 (tokenToSME st) _tokenId in
    verifyToken st _tokenId smeAddress.

Definition isAuthorizedSME (st : State) (_sme : address) : Result bool :=
  mret (mget false (authorizedSMEs st) _sme).

Definition getTotalTransactions (st : State) : Result uint256 :=
  mret (totalTransactions st).

(** ** What [logTransaction] checks and writes *)

(** The record pushed by a successful [logTransaction]. *)
Definition newTx (env : Env) (_tokenId _transactionType : string)
    (_amount : uint256) (_dataHash : bytes32) (_ipfsHash : string) : Transaction :=
  mkTransaction _tokenId (msg_sender env) (block_timestamp env)
    _transactionType _amount _dataHash _ipfsHash true.

(** The state written by a successful [logTransaction]. *)
Definition logged (env : Env) (_tokenId _transactionType : string)
    (_amount : uint256) (_dataHash : bytes32) (_ipfsHash : string)
    (st : State) : State :=
  mkState
    (<[msg_sender env := mget [] (auditTrails st) (msg_sender env)
         ++ [newTx env _tokenId _transactionType _amount _dataHash _ipfsHash]]>
       (auditTrails st))
    (<[_tokenId := true]> (tokenExists st))
    (authorizedSMEs st)
    (<[_tokenId := msg_sender env]> (tokenToSME st))
    (<[msg_sender env := mget 0 (transactionCounts st) (msg_sender env) + 1]>
       (transactionCounts st))
    (totalTransactions st + 1)
    (_owner st) NOT_ENTERED (_paused st)
    (events st ++ [TransactionLogged _tokenId (msg_sender env)
                     (block_timestamp env) _dataHash _transactionType _amount]).

(** The checks of [logTransaction] in the order the code runs them: the
    modifiers in the order of the function header, then the [require]s of the
    body, then the two checked increments. *)
Definition log_checks (env : Env) (_tokenId _transactionType : string)
    (_amount : uint256) (_dataHash : bytes32) (_ipfsHash : string)
    (st : State) : list (bool * Error) :=
  [ (mget false (authorizedSMEs st) (msg_sender env),
     Revert "AuditTrail: Not authorized SME");
    (negb (bool_decide (_status st = ENTERED)),
     Revert "ReentrancyGuard: reentrant call");
    (negb (_paused st), Revert "Pausable: paused");
    (0 <? Z.of_nat (String.length _tokenId),
     Revert "AuditTrail: Token ID cannot be empty");
    (Z.of_nat (String.length _tokenId) <=? 64,
     Revert "AuditTrail: Token ID too long");
    (0 <? _amount, Revert "AuditTrail: Amount must be greater than zero");
    (negb (mget false (tokenExists st) _tokenId),
     Revert "AuditTrail: Token already exists");
    (negb (bool_decide (_dataHash = 0)), Revert "AuditTrail: Invalid data hash");
    (0 <? Z.of_nat (String.length _transactionType),
     Revert "AuditTrail: Transaction type required");
    (0 <? Z.of_nat (String.length _ipfsHash),
     Revert "AuditTrail: IPFS hash required");
    (mget 0 (transactionCounts st) (msg_sender env) + 1 <=? MAX_UINT256, Panic 17);
    (totalTransactions st + 1 <=? MAX_UINT256, Panic 17) ].

(** The error of the first check that does not hold, if any. *)
Fixpoint first_failure (checks : list (bool * Error)) : option Error :=
  match checks with
  | [] => None
  | (ok, e) :: rest => if ok then first_failure rest else Some e
  end.

(** The preconditions of [logTransaction] in the order the code checks them:
    the modifiers [onlyAuthorizedSME], [whenNotPaused], [validTokenId],
    [validAmount], then the [require]s of the body. *)
Definition code_order_checks (env : Env) (_tokenId _transactionType : string)
    (_amount : uint256) (_dataHash : bytes32) (_ipfsHash : string)
    (st : State) : list (bool * Error) :=
  [ (mget false (authorizedSMEs st) (msg_sender env),
     Revert "AuditTrail: Not authorized SME");
    (negb (_paused st), Revert "Pausable: paused");
    (0 <? Z.of_nat (String.length _tokenId),
     Revert "AuditTrail: Token ID cannot be empty");
    (Z.of_nat (String.length _tokenId) <=? 64,
     Revert "AuditTrail: Token ID too long");
    (0 <? _amount, Revert "AuditTrail: Amount must be greater than zero");
    (negb (mget false (tokenExists st) _tokenId),
     Revert "AuditTrail: Token already exists");
    (negb (bool_decide (_dataHash = 0)), Revert "AuditTrail: Invalid data hash");
    (0 <? Z.of_nat (String.length _transactionType),
     Revert "AuditTrail: Transaction type required");
    (0 <? Z.of_nat (String.length _ipfsHash),
     Revert "AuditTrail: IPFS hash required") ].

(** The same preconditions in the order the spec lists them: not paused;
    authorized; tokenId well-formed and not already used; amount; content
    hash; transaction type; content pointer. *)
Definition spec_order_checks (env : Env) (_tokenId _transactionType : string)
    (_amount : uint256) (_dataHash : bytes32) (_ipfsHash : string)
    (st : State) : list (bool * Error) :=
  [ (negb (_paused st), Revert "Pausable: paused");
    (mget false (authorizedSMEs st) (msg_sender env),
     Revert "AuditTrail: Not authorized SME");
    (0 <? Z.of_nat (String.length _tokenId),
     Revert "AuditTrail: Token ID cannot be empty");
    (Z.of_nat (String.length _tokenId) <=? 64,
     Revert "AuditTrail: Token ID too long");
    (negb (mget false (tokenExists st) _tokenId),
     Revert "AuditTrail: Token already exists");
    (0 <? _amount, Revert "AuditTrail: Amount must be greater than zero");
    (negb (bool_decide (_dataHash = 0)), Revert "AuditTrail: Invalid data hash");
    (0 <? Z.of_nat (String.length _transactionType),
     Revert "AuditTrail: Transaction type required");
    (0 <? Z.of_nat (String.length _ipfsHash),
     Revert "AuditTrail: IPFS hash required") ].

(** ** What the administrative functions write *)

(** One iteration of the body of the loop of [batchAuthorizeSMEs], which is
    also the body of [authorizeSME]. *)
Definition authorized (_sme : address) (_status : bool) (st : State) : State :=
  add_event (SMEAuthorized _sme _status)
    (set_authorizedSMEs (<[_sme := _status]> (authorizedSMEs st)) st).

(** The writes of the loop of [batchAuthorizeSMEs] over a list of
    (principal, status) entries, in index order. *)
Definition batch_apply (entries : list (Z * bool)) (st : State) : State :=
  fold_left (fun st e => authorized e.1 e.2 st) entries st.

(** ** Transactions and reachable states *)

(** The external functions that write, with their arguments. *)
Inductive Call :=
| CallAuthorizeSME (_sme : address) (_status : bool)
| CallLogTransaction (_tokenId _transactionType : string) (_amount : uint256)
    (_dataHash : bytes32) (_ipfsHash : string)
| CallPause
| CallUnpause
| CallBatchAuthorizeSMEs (_smes : list Z) (_statuses : list bool)
| CallTransferOwnership (newOwner : address)
| CallRenounceOwnership.

(** State after the transaction that sends [c] in context [env]. *)
Definition execute (env : Env) (c : Call) (st : State) : State :=
  match c with
  | CallAuthorizeSME _sme _status => (call (authorizeSME env _sme _status) st).1
  | CallLogTransaction _tokenId _transactionType _amount _dataHash _ipfsHash =>
    (call (logTransaction env _tokenId _transactionType _amount _dataHash
             _ipfsHash) st).1
  | CallPause => (call (pause env) st).1
  | CallUnpause => (call (unpause env) st).1
  | CallBatchAuthorizeSMEs _smes _statuses =>
    (call (batchAuthorizeSMEs env _smes _statuses) st).1
  | CallTransferOwnership newOwner => (call (transferOwnership env newOwner) st).1
  | CallRenounceOwnership => (call (renounceOwnership env) st).1
  end.

(** States the contract can be in: deployed by an account (never the zero
    address), then any sequence of transactions. *)
Inductive reachable : State -> Prop :=
| reachable_deployed deployer :
    deployer <> 0 -> reachable (constructor deployer)
| reachable_step st env c :
    reachable st -> reachable (execute env c st).

(** ** Parts of the state *)

(** The ledger part of the state: trails, token index and counters. *)
Definition same_ledger (st st' : State) : Prop :=
  auditTrails st' = auditTrails st /\
  tokenExists st' = tokenExists st /\
  tokenToSME st' = tokenToSME st /\
  transactionCounts st' = transactionCounts st /\
  totalTransactions st' = totalTransactions st.

(** Storage apart from the event log. *)
Definition storage_eq (st st' : State) : Prop :=
  same_ledger st st' /\
  authorizedSMEs st' = authorizedSMEs st /\
  _owner st' = _owner st /\
  _status st' = _status st /\
  _paused st' = _paused st.

(** An administrative step: the ledger part, the reentrancy status and the
    authorization of the zero address stay as they are. *)
Definition admin_step (st st' : State) : Prop :=
  same_ledger st st' /\
  _status st' = _status st /\
  mget false (authorizedSMEs st') 0 = mget false (authorizedSMEs st) 0.

(** [r] is the [i]-th record of the trail of [p]. *)
Definition record_at (st : State) (p : address) (i : nat) (r : Transaction) : Prop :=
  mget [] (auditTrails st) p !! i = Some r.

(** ** Invariants *)

(** What passing every check of [logTransaction] means. *)
Record log_accepts (env : Env) (_tokenId _transactionType : string)
    (_amount : uint256) (_dataHash : bytes32) (_ipfsHash : string)
    (st : State) : Prop := {
  acc_authorized : mget false (authorizedSMEs st) (msg_sender env) = true;
  acc_not_entered : _status st <> ENTERED;
  acc_not_paused : _paused st = false;
  acc_token_nonempty : (0 < String.length _tokenId)%nat;
  acc_token_short : (String.length _tokenId <= 64)%nat;
  acc_amount : 0 < _amount;
  acc_fresh : mget false (tokenExists st) _tokenId = false;
  acc_hash : _dataHash <> 0;
  acc_type : (0 < String.length _transactionType)%nat;
  acc_ipfs : (0 < String.length _ipfsHash)%nat;
  acc_count : mget 0 (transactionCounts st) (msg_sender env) + 1 <= MAX_UINT256;
  acc_total : totalTransactions st + 1 <= MAX_UINT256
}.

(** The token index agrees with the trails: every record is indexed under
    its tokenId and filed in the trail of its principal, every indexed
    tokenId has a record, a trail holds a tokenId once, the zero address is
    never authorized, and no guarded call is running between transactions. *)
Record ledger_ok (st : State) : Prop := {
  ok_indexed : forall p i r, record_at st p i r ->
    mget false (tokenExists st) (tokenId r) = true /\
    mget 0 (tokenToSME st) (tokenId r) = p /\
    smeAddress r = p /\ p <> 0 /\
    (0 < String.length (tokenId r) <= 64)%nat;
  ok_exists : forall t, mget false (tokenExists st) t = true ->
    exists i r, record_at st (mget 0 (tokenToSME st) t) i r /\ tokenId r = t;
  ok_unique : forall p i j r1 r2,
    record_at st p i r1 -> record_at st p j r2 ->
    tokenId r1 = tokenId r2 -> i = j;
  ok_zero : mget false (authorizedSMEs st) 0 = false;
  ok_status : _status st = NOT_ENTERED
}.

(** ** Example states *)

Definition demo_deployed : State := constructor 1.

Definition demo_authorized : State :=
  execute (mkEnv 1 10) (CallAuthorizeSME 5 true) demo_deployed.

Definition demo_logged : State :=
  execute (mkEnv 5 1000) (CallLogTransaction "T1" "PAYMENT" 100 77 "ptr1")
    demo_authorized.

Definition demo_deauthorized : State :=
  execute (mkEnv 1 1001) (CallAuthorizeSME 5 false) demo_logged.

Definition demo_paused : State :=
  execute (mkEnv 1 1002) CallPause demo_logged.

Definition demo_T1 : Transaction :=
  mkTransaction "T1" 5 1000 "PAYMENT" 100 77 "ptr1" true.

(** ** Counting records *)

(** Sum of [g] over the values of a mapping (absent keys add nothing). *)
Definition map_sum {K V} `{Countable K} (g : V -> Z) (m : gmap K V) : Z :=
  map_fold (fun _ v acc => g v + acc) 0 m.

(** Number of records of a trail whose principal field is [p]. *)
Definition count_principal (p : address) (l : list Transaction) : Z :=
  Z.of_nat (length (filter (fun r => smeAddress r = p) l)).

(** Number of committed records, over all trails, whose principal field is
    [p]. *)
Definition records_of (p : address) (st : State) : Z :=
  map_sum (count_principal p) (auditTrails st).

(** Sum of [transactionCounts] over all principals. *)
Definition sum_counts (st : State) : Z := map_sum id (transactionCounts st).

(** The counters agree with the trails. *)
Definition counters_ok (st : State) : Prop :=
  (forall p, mget 0 (transactionCounts st) p = records_of p st) /\
  totalTransactions st = sum_counts st.

(** ** Well-formed records, events and histories *)

(** What the guards of [logTransaction] make true of the record it pushes
    into the trail of [p]. *)
Record record_ok (p : address) (r : Transaction) : Prop := {
  rec_principal : smeAddress r = p;
  rec_nonzero : p <> 0;
  rec_token : (0 < String.length (tokenId r) <= 64)%nat;
  rec_amount : 0 < amount r;
  rec_hash : dataHash r <> 0;
  rec_type : (0 < String.length (transactionType r))%nat;
  rec_ipfs : (0 < String.length (ipfsHash r))%nat;
  rec_verified : isVerified r = true
}.

(** The [TransactionLogged] event emitted when [r] was pushed. *)
Definition logged_event_of (r : Transaction) : Event :=
  TransactionLogged (tokenId r) (smeAddress r) (timestamp r) (dataHash r)
    (transactionType r) (amount r).

Definition is_logged_event (e : Event) : bool :=
  match e with
  | TransactionLogged _ _ _ _ _ _ => true
  | _ => false
  end.

(** Number of [TransactionLogged] events in the log. *)
Definition logged_events (st : State) : Z :=
  Z.of_nat (length (List.filter is_logged_event (events st))).

(** Number of records over all trails. *)
Definition total_records (st : State) : Z :=
  map_sum (fun l : list Transaction => Z.of_nat (length l)) (auditTrails st).

(** [st'] is [st] after a sequence of transactions. *)
Inductive steps (st : State) : State -> Prop :=
| steps_refl : steps st st
| steps_step st' env c : steps st st' -> steps st (execute env c st').



(** ** The helpers of the front end

    Source: [frontend/src/utils/helpers.js].  A JavaScript string is a
    sequence of code units; the helpers are modelled on strings whose code
    units are below 256, as lists of [ascii], and on numbers that are
    integers.  [slice], [split], [pop] and [toLowerCase] are the built-in
    methods the helpers call. *)

(** The clamping of an index argument of [String.prototype.slice]: a
    negative index counts from the end. *)
Definition relative_index (len : nat) (k : Z) : nat :=
  if k <? 0 then Z.to_nat (Z.max (Z.of_nat len + k) 0)
  else Z.to_nat (Z.min k (Z.of_nat len)).

(** [s.slice(start)] and [s.slice(start, end)]. *)
Definition slice (s : list ascii) (start : Z) (end_ : option Z) : list ascii :=
  let len := length s in
  let from := relative_index len start in
  let to :=
    match end_ with
    | None => len
    | Some e => relative_index len e
    end in
  take (to - from) (drop from s).

Definition ellipsis : list ascii := list_ascii_of_string "...".

(** [shortenAddress(address, startLength = 6, endLength = 4)]; an argument
    that is left out is [None]. *)
Definition shortenAddress (address : list ascii)
    (startLength endLength : option Z) : list ascii :=
  let startLength := default 6 startLength in
  let endLength := default 4 endLength in
  if bool_decide (address = []) then []
  else if Z.of_nat (length address) <=? startLength + endLength then address
  else slice address 0 (Some startLength) ++ ellipsis
         ++ slice address (- endLength) None.

(** [truncateText(text, maxLength = 50)]. *)
Definition truncateText (text : list ascii) (maxLength : option Z) : list ascii :=
  let maxLength := default 50 maxLength in
  if bool_decide (text = []) then []
  else if Z.of_nat (length text) <=? maxLength then text
  else slice text 0 (Some maxLength) ++ ellipsis.

(** [formatBlockchainHash(hash, startLength = 10, endLength = 8)]. *)
Definition formatBlockchainHash (hash : list ascii)
    (startLength endLength : option Z) : list ascii :=
  let startLength := default 10 startLength in
  let endLength := default 8 endLength in
  if bool_decide (hash = []) then list_ascii_of_string "N/A"
  else if Z.of_nat (length hash) <=? startLength + endLength then hash
  else slice hash 0 (Some startLength) ++ ellipsis
         ++ slice hash (- endLength) None.

(** The character class [[a-fA-F0-9]]. *)
Definition is_hex_digit (c : ascii) : bool :=
  let n := N_of_ascii c in
  ((97 <=? n) && (n <=? 102) || (65 <=? n) && (n <=? 70)
   || (48 <=? n) && (n <=? 57))%N.

(** [isValidEthereumAddress(address)]: the test of the regular expression
    [/^0x[a-fA-F0-9]{40}$/]. *)
Definition isValidEthereumAddress (address : list ascii) : bool :=
  if bool_decide (address = []) then false
  else
    match address with
    | "0"%char :: "x"%char :: digits =>
      bool_decide (length digits = 40%nat) && forallb is_hex_digit digits
    | _ => false
    end.

(** [toLowerCase] on one code unit below 256: the letters A to Z and the
    capital letters of Latin-1 (all of U+00C0 to U+00DE but the
    multiplication sign) move up by 32. *)
Definition lower_unit (c : ascii) : ascii :=
  let n := N_of_ascii c in
  if ((65 <=? n) && (n <=? 90)
      || (192 <=? n) && (n <=? 222) && negb (n =? 215))%N
  then ascii_of_N (n + 32) else c.

Definition toLowerCase (s : list ascii) : list ascii := map lower_unit s.

(** [s.split(sep)] for a separator of one code unit: the segments between
    the separators, at least one. *)
Fixpoint split (sep : ascii) (s : list ascii) : list (list ascii) :=
  match s with
  | [] => [[]]
  | c :: rest =>
    if bool_decide (c = sep) then [] :: split sep rest
    else
      match split sep rest with
      | seg :: segs => (c :: seg) :: segs
      | [] => [[c]]
      end
  end.

(** [a.pop()] as an expression: the last element ([undefined] on an empty
    array is [None]). *)
Definition pop {A} (a : list A) : option A := last a.

Definition default_allowedTypes : list (list ascii) :=
  map list_ascii_of_string ["pdf"; "jpg"; "jpeg"; "png"; "doc"; "docx"].

(** [isAllowedFileType(fileName, allowedTypes = [...])]; [None] is the
    [TypeError] of [undefined.toLowerCase()]. *)
Definition isAllowedFileType (fileName : list ascii)
    (allowedTypes : option (list (list ascii))) : option bool :=
  let allowedTypes := default default_allowedTypes allowedTypes in
  if bool_decide (fileName = []) then Some false
  else
    match pop (split "."%char fileName) with
    | Some segment =>
      let extension := toLowerCase segment in
      Some (bool_decide (extension ∈ allowedTypes))
    | None => None
    end.

(** The object [calculatePagination] returns. *)
Record Pagination := mkPagination {
  currentPage : Z;
  totalPages : Z;
  totalItems : Z;
  itemsPerPage : Z;
  startIndex : Z;
  endIndex : Z;
  hasNext : bool;
  hasPrevious : bool;
  isFirstPage : bool;
  isLastPage : bool
}.

(** [Math.ceil(a / b)] on integers, [b] not zero. *)
Definition ceil_div (a b : Z) : Z := - ((- a) / b).

(** [calculatePagination(currentPage, totalItems, itemsPerPage)] on
    integers, for a page size that is not zero.  With [itemsPerPage = 0] the
    source returns an object whose [totalPages] is [Infinity] or [NaN];
    the integers have no such value, the model stops at [None] there and
    nothing below speaks of that case. *)
Definition calculatePagination (currentPage totalItems itemsPerPage : Z)
    : option Pagination :=
  if bool_decide (itemsPerPage = 0) then None
  else
    let totalPages := ceil_div totalItems itemsPerPage in
    let startIndex := (currentPage - 1) * itemsPerPage in
    let endIndex := Z.min (startIndex + itemsPerPage) totalItems in
    Some (mkPagination currentPage totalPages totalItems itemsPerPage
            startIndex endIndex
            (currentPage <? totalPages) (1 <? currentPage)
            (bool_decide (currentPage = 1))
            (bool_decide (currentPage = totalPages))).

(** ** Filtering the audit trail table

    Source: [getFilteredTransactions] of the [AuditTrail] component of the
    front end; the component state it reads ([transactions], [searchTerm],
    [filterType], [filterStatus]) is passed as arguments. *)

(** The fields of a row that the filters read; [description] may be
    missing. *)
Record Row := mkRow {
  token_id : list ascii;
  description : option (list ascii);
  transaction_type : list ascii;
  verification_status : list ascii
}.

(** [s.startsWith(p)], the test [includes] makes at each position. *)
Fixpoint starts_with (s p : list ascii) : bool :=
  match p, s with
  | [], _ => true
  | _ :: _, [] => false
  | c :: p', d :: s' => bool_decide (c = d) && starts_with s' p'
  end.

(** [s.includes(sub)]: [sub] occurs in [s]. *)
Fixpoint includes (s sub : list ascii) : bool :=
  starts_with s sub ||
  match s with
  | [] => false
  | _ :: rest => includes rest sub
  end.

(** The callback of the search filter. *)
Definition matches_search (searchTerm : list ascii) (tx : Row) : bool :=
  includes (toLowerCase (token_id tx)) (toLowerCase searchTerm)
  || match description tx with
     | Some d => includes (toLowerCase d) (toLowerCase searchTerm)
     | None => false
     end
  || includes (toLowerCase (transaction_type tx)) (toLowerCase searchTerm).

Definition getFilteredTransactions (transactions : list Row)
    (searchTerm filterType filterStatus : list ascii) : list Row :=
  let filtered := transactions in
  let filtered :=
    if bool_decide (searchTerm = []) then filtered
    else List.filter (matches_search searchTerm) filtered in
  let filtered :=
    if bool_decide (filterType = []) then filtered
    else List.filter (fun tx => bool_decide (transaction_type tx = filterType))
           filtered in
  let filtered :=
    if bool_decide (filterStatus = []) then filtered
    else List.filter
           (fun tx => bool_decide (verification_status tx = filterStatus))
           filtered in
  filtered.

(** A capital letter A to Z. *)
Definition is_capital (c : ascii) : bool :=
  let n := N_of_ascii c in ((65 <=? n) && (n <=? 90))%N.

(** [Number.MAX_SAFE_INTEGER]: up to it the arithmetic of JavaScript numbers
    on integers is the arithmetic of the integers. *)
Definition MAX_SAFE_INTEGER : Z := 2 ^ 53 - 1.

(** ** Tactics *)

Ltac unfold_run :=
  unfold call, logTransaction, authorizeSME, pause, unpause, batchAuthorizeSMEs,
    transferOwnership, renounceOwnership, _pause, _unpause, _transferOwnership,
    onlyAuthorizedSME, onlyOwner, nonReentrant, whenNotPaused, whenPaused,
    validTokenId, validAmount, validTokenIdR, require, requireR, emit, modify,
    get, lift, fail, checked_inc, mbind, M_bind, Result_bind, mret, M_ret,
    Result_ret.

Ltac st_simpl :=
  cbn [auditTrails tokenExists authorizedSMEs tokenToSME transactionCounts
       totalTransactions _owner _status _paused events set_auditTrails
       set_tokenExists set_authorizedSMEs set_tokenToSME set_transactionCounts
       set_totalTransactions set_owner set_status set_paused add_event
       msg_sender block_timestamp fst snd].

(** * Proofs *)

(** ** Running [logTransaction] *)

Lemma logTransaction_run env _tokenId _transactionType _amount _dataHash _ipfsHash st :
  call (logTransaction env _tokenId _transactionType _amount _dataHash _ipfsHash) st =
  match first_failure
          (log_checks env _tokenId _transactionType _amount _dataHash _ipfsHash st) with
  | Some e => (st, inl e)
  | None =>
    (logged env _tokenId _transactionType _amount _dataHash _ipfsHash st, inr true)
  end.
Proof.
  unfold log_checks, first_failure.
  unfold_run.
  destruct (mget false (authorizedSMEs st) (msg_sender env)); [|reflexivity].
  destruct (negb (bool_decide (_status st = ENTERED))); [|reflexivity].
  st_simpl.
  destruct (negb (_paused st)); [|reflexivity].
  destruct (0 <? Z.of_nat (String.length _tokenId)); [|reflexivity].
  destruct (Z.of_nat (String.length _tokenId) <=? 64); [|reflexivity].
  destruct (0 <? _amount); [|reflexivity].
  st_simpl.
  destruct (negb (mget false (tokenExists st) _tokenId)); [|reflexivity].
  destruct (negb (bool_decide (_dataHash = 0))); [|reflexivity].
  destruct (0 <? Z.of_nat (String.length _transactionType)); [|reflexivity].
  destruct (0 <? Z.of_nat (String.length _ipfsHash)); [|reflexivity].
  st_simpl.
  destruct (mget 0 (transactionCounts st) (msg_sender env) + 1 <=? MAX_UINT256);
    [|reflexivity].
  st_simpl.
  destruct (totalTransactions st + 1 <=? MAX_UINT256); reflexivity.
Qed.

(** ** Running the administrative functions *)

Lemma authorizeSME_run env _sme _status st :
  call (authorizeSME env _sme _status) st =
  if bool_decide (_owner st = msg_sender env) then
    if bool_decide (_sme = 0)
    then (st, inl (Revert "AuditTrail: Invalid SME address"))
    else (authorized _sme _status st, inr tt)
  else (st, inl (Revert "Ownable: caller is not the owner")).
Proof.
  unfold_run.
  destruct (bool_decide (_owner st = msg_sender env)); [|reflexivity].
  destruct (bool_decide (_sme = 0)); reflexivity.
Qed.

Lemma pause_run env st :
  call (pause env) st =
  if bool_decide (_owner st = msg_sender env) then
    if _paused st then (st, inl (Revert "Pausable: paused"))
    else (add_event (Paused (msg_sender env)) (set_paused true st), inr tt)
  else (st, inl (Revert "Ownable: caller is not the owner")).
Proof.
  unfold_run.
  destruct (bool_decide (_owner st = msg_sender env)); [|reflexivity].
  destruct (_paused st); reflexivity.
Qed.

Lemma unpause_run env st :
  call (unpause env) st =
  if bool_decide (_owner st = msg_sender env) then
    if _paused st
    then (add_event (Unpaused (msg_sender env)) (set_paused false st), inr tt)
    else (st, inl (Revert "Pausable: not paused"))
  else (st, inl (Revert "Ownable: caller is not the owner")).
Proof.
  unfold_run.
  destruct (bool_decide (_owner st = msg_sender env)); [|reflexivity].
  destruct (_paused st); reflexivity.
Qed.

Lemma transferOwnership_run env newOwner st :
  call (transferOwnership env newOwner) st =
  if bool_decide (_owner st = msg_sender env) then
    if bool_decide (newOwner = 0)
    then (st, inl (Revert "Ownable: new owner is the zero address"))
    else (add_event (OwnershipTransferred (_owner st) newOwner)
            (set_owner newOwner st), inr tt)
  else (st, inl (Revert "Ownable: caller is not the owner")).
Proof.
  unfold_run.
  destruct (bool_decide (_owner st = msg_sender env)); [|reflexivity].
  destruct (bool_decide (newOwner = 0)); reflexivity.
Qed.

Lemma renounceOwnership_run env st :
  call (renounceOwnership env) st =
  if bool_decide (_owner st = msg_sender env) then
    (add_event (OwnershipTransferred (_owner st) 0) (set_owner 0 st), inr tt)
  else (st, inl (Revert "Ownable: caller is not the owner")).
Proof.
  unfold_run.
  destruct (bool_decide (_owner st = msg_sender env)); reflexivity.
Qed.

Lemma batchAuthorizeSMEs_loop_success n : forall i _smes _statuses st,
  (i + n)%nat = length _smes ->
  length _smes = length _statuses ->
  (forall a, a ∈ drop i _smes -> a <> 0) ->
  batchAuthorizeSMEs_loop n i _smes _statuses st =
  Success tt (batch_apply (drop i (zip _smes _statuses)) st).
Proof.
  induction n as [|n IH]; intros i _smes _statuses st Hlen Heq Hnz.
  - cbn. rewrite drop_ge; [reflexivity|]. rewrite length_zip_with. lia.
  - cbn [batchAuthorizeSMEs_loop].
    destruct (lookup_lt_is_Some_2 _smes i) as [a Ha]; [lia|].
    destruct (lookup_lt_is_Some_2 _statuses i) as [s Hs]; [lia|].
    rewrite Ha, Hs.
    assert (Hzip : zip _smes _statuses !! i = Some (a, s)).
    { rewrite lookup_zip_with, Ha, Hs. reflexivity. }
    rewrite (drop_S _ _ _ Hzip).
    assert (a <> 0) as Ha0.
    { apply Hnz. rewrite (drop_S _ _ _ Ha). left. }
    unfold_run. rewrite bool_decide_eq_false_2 by assumption.
    cbn [negb]. fold (authorized a s st).
    rewrite (IH (S i)); [reflexivity|lia|assumption|].
    intros b Hb. apply Hnz. rewrite (drop_S _ _ _ Ha). right. assumption.
Qed.

Lemma batchAuthorizeSMEs_loop_failure n : forall i _smes _statuses st,
  (i + n)%nat = length _smes ->
  length _smes = length _statuses ->
  0 ∈ drop i _smes ->
  exists st', batchAuthorizeSMEs_loop n i _smes _statuses st =
              Failure (Revert "AuditTrail: Invalid SME address") st'.
Proof.
  induction n as [|n IH]; intros i _smes _statuses st Hlen Heq Hz.
  - rewrite drop_ge in Hz by lia. inversion Hz.
  - cbn [batchAuthorizeSMEs_loop].
    destruct (lookup_lt_is_Some_2 _smes i) as [a Ha]; [lia|].
    destruct (lookup_lt_is_Some_2 _statuses i) as [s Hs]; [lia|].
    rewrite Ha, Hs. rewrite (drop_S _ _ _ Ha) in Hz.
    unfold_run. destruct (bool_decide_reflect (a = 0)) as [->|Hne].
    + eexists. reflexivity.
    + cbn [negb]. apply elem_of_cons in Hz as [Hz|Hz]; [congruence|].
      apply (IH (S i)); [lia|assumption|assumption].
Qed.

Lemma batchAuthorizeSMEs_run env _smes _statuses st :
  call (batchAuthorizeSMEs env _smes _statuses) st =
  if bool_decide (_owner st = msg_sender env) then
    if bool_decide (length _smes = length _statuses) then
      if bool_decide (0 < length _smes)%nat then
        if bool_decide (0 ∈ _smes)
        then (st, inl (Revert "AuditTrail: Invalid SME address"))
        else (batch_apply (zip _smes _statuses) st, inr tt)
      else (st, inl (Revert "AuditTrail: Empty arrays"))
    else (st, inl (Revert "AuditTrail: Arrays length mismatch"))
  else (st, inl (Revert "Ownable: caller is not the owner")).
Proof.
  unfold call, batchAuthorizeSMEs, onlyOwner, require, requireR, lift, get, fail,
    mbind, M_bind, mret, M_ret.
  destruct (bool_decide (_owner st = msg_sender env)); [|reflexivity].
  destruct (bool_decide_reflect (length _smes = length _statuses)) as [Heq|];
    [|reflexivity].
  destruct (bool_decide (0 < length _smes)%nat); [|reflexivity].
  destruct (bool_decide_reflect (0 ∈ _smes)) as [Hz|Hnz].
  - destruct (batchAuthorizeSMEs_loop_failure (length _smes) 0 _smes _statuses st)
      as [st' ->]; auto.
  - rewrite batchAuthorizeSMEs_loop_success; auto.
    intros a Ha ->. apply Hnz. exact Ha.
Qed.

(** ** Frames of the operations *)

Lemma same_ledger_refl st : same_ledger st st.
Proof. repeat split. Qed.

Lemma same_ledger_trans st1 st2 st3 :
  same_ledger st1 st2 -> same_ledger st2 st3 -> same_ledger st1 st3.
Proof. unfold same_ledger. intuition congruence. Qed.

Lemma authorized_ledger _sme _status st : same_ledger st (authorized _sme _status st).
Proof. repeat split. Qed.

Lemma authorized_status _sme s st : _status (authorized _sme s st) = _status st.
Proof. reflexivity. Qed.

Lemma batch_apply_cons e entries st :
  batch_apply (e :: entries) st = batch_apply entries (authorized e.1 e.2 st).
Proof. reflexivity. Qed.

Lemma batch_apply_ledger entries : forall st, same_ledger st (batch_apply entries st).
Proof.
  induction entries as [|e entries IH]; intros st; [apply same_ledger_refl|].
  rewrite batch_apply_cons.
  eapply same_ledger_trans; [apply authorized_ledger|apply IH].
Qed.

Lemma batch_apply_fields entries : forall st,
  _owner (batch_apply entries st) = _owner st /\
  _status (batch_apply entries st) = _status st /\
  _paused (batch_apply entries st) = _paused st.
Proof.
  induction entries as [|e entries IH]; intros st; [repeat split|].
  rewrite batch_apply_cons.
  destruct (IH (authorized e.1 e.2 st)) as (-> & -> & ->). repeat split.
Qed.

Lemma batch_apply_authorizedSMEs entries : forall st,
  authorizedSMEs (batch_apply entries st) =
  fold_left (fun m e => <[e.1 := e.2]> m) entries (authorizedSMEs st).
Proof.
  induction entries as [|e entries IH]; intros st; [reflexivity|].
  rewrite batch_apply_cons, IH. reflexivity.
Qed.

Lemma batch_apply_events entries : forall st,
  events (batch_apply entries st) =
  events st ++ map (fun e => SMEAuthorized e.1 e.2) entries.
Proof.
  induction entries as [|e entries IH]; intros st.
  - cbn. rewrite app_nil_r. reflexivity.
  - rewrite batch_apply_cons, IH. cbn. rewrite <- app_assoc. reflexivity.
Qed.

(** An administrative transaction never touches the ledger part. *)
Lemma execute_admin_ledger env c st :
  (forall a b c' d e, c <> CallLogTransaction a b c' d e) ->
  same_ledger st (execute env c st).
Proof.
  intros Hc. destruct c; cbn [execute].
  - rewrite authorizeSME_run. repeat case_match; apply same_ledger_refl || apply authorized_ledger.
  - exfalso. eapply Hc. reflexivity.
  - rewrite pause_run. repeat case_match; repeat split.
  - rewrite unpause_run. repeat case_match; repeat split.
  - rewrite batchAuthorizeSMEs_run.
    repeat case_match; apply same_ledger_refl || apply batch_apply_ledger.
  - rewrite transferOwnership_run. repeat case_match; repeat split.
  - rewrite renounceOwnership_run. repeat case_match; repeat split.
Qed.

(** ** Reading maps after a write *)

Lemma mget_empty {K V} `{Countable K} (d : V) (k : K) : mget d ∅ k = d.
Proof. unfold mget. rewrite lookup_empty. reflexivity. Qed.

Lemma mget_insert_eq {K V} `{Countable K} (d : V) (m : gmap K V) k v :
  mget d (<[k := v]> m) k = v.
Proof. unfold mget. rewrite lookup_insert_eq. reflexivity. Qed.

Lemma mget_insert_ne {K V} `{Countable K} (d : V) (m : gmap K V) k k' v :
  k <> k' -> mget d (<[k := v]> m) k' = mget d m k'.
Proof. intros Hne. unfold mget. rewrite lookup_insert_ne by assumption. reflexivity. Qed.

Lemma mget_fold_insert_notin {V} (d : V) (entries : list (Z * V)) k :
  forall m : gmap Z V,
  k ∉ entries.*1 ->
  mget d (fold_left (fun m e => <[e.1 := e.2]> m) entries m) k = mget d m k.
Proof.
  induction entries as [|e entries IH]; intros m Hk; [reflexivity|].
  cbn [fold_left]. rewrite fmap_cons, not_elem_of_cons in Hk.
  destruct Hk as [Hne Hk]. rewrite IH by assumption.
  apply mget_insert_ne. congruence.
Qed.

Lemma fst_zip_subset (l : list Z) (k : list bool) a :
  a ∈ (zip l k).*1 -> a ∈ l.
Proof.
  revert k. induction l as [|x l IH]; intros [|y k] Ha; cbn in Ha;
    try (inversion Ha; fail).
  apply elem_of_cons in Ha as [->|Ha]; [left|right; eauto].
Qed.

(** ** What one transaction can do *)

Lemma admin_step_refl st : admin_step st st.
Proof. split; [apply same_ledger_refl|split; reflexivity]. Qed.

Lemma authorized_admin_step _sme s st :
  _sme <> 0 -> admin_step st (authorized _sme s st).
Proof.
  intros Hne. split; [apply authorized_ledger|split; [reflexivity|]].
  cbn. apply mget_insert_ne. assumption.
Qed.

Lemma batch_admin_step _smes _statuses st :
  0 ∉ _smes -> admin_step st (batch_apply (zip _smes _statuses) st).
Proof.
  intros Hnz. split; [apply batch_apply_ledger|split].
  - apply batch_apply_fields.
  - rewrite batch_apply_authorizedSMEs. apply mget_fold_insert_notin.
    intros Hin. apply Hnz. eapply fst_zip_subset. exact Hin.
Qed.

(** Every transaction is an administrative step, or a successful
    [logTransaction] that passed all its checks. *)
Lemma execute_cases env c st :
  admin_step st (execute env c st) \/
  exists _tokenId _transactionType _amount _dataHash _ipfsHash,
    c = CallLogTransaction _tokenId _transactionType _amount _dataHash _ipfsHash /\
    first_failure (log_checks env _tokenId _transactionType _amount _dataHash
                     _ipfsHash st) = None /\
    execute env c st =
      logged env _tokenId _transactionType _amount _dataHash _ipfsHash st.
Proof.
  destruct c; cbn [execute].
  - left. rewrite authorizeSME_run.
    destruct (bool_decide (_owner st = msg_sender env)); [|apply admin_step_refl].
    destruct (bool_decide_reflect (_sme = 0)); [apply admin_step_refl|].
    apply authorized_admin_step. assumption.
  - rewrite logTransaction_run.
    destruct (first_failure _) eqn:Hff.
    + left. apply admin_step_refl.
    + right. do 5 eexists. split; [reflexivity|]. split; [exact Hff|reflexivity].
  - left. rewrite pause_run. repeat case_match; try apply admin_step_refl.
    repeat split.
  - left. rewrite unpause_run. repeat case_match; try apply admin_step_refl.
    repeat split.
  - left. rewrite batchAuthorizeSMEs_run.
    destruct (bool_decide (_owner st = msg_sender env)); [|apply admin_step_refl].
    destruct (bool_decide (length _smes = length _statuses)); [|apply admin_step_refl].
    destruct (bool_decide (0 < length _smes)%nat); [|apply admin_step_refl].
    destruct (bool_decide_reflect (0 ∈ _smes)); [apply admin_step_refl|].
    apply batch_admin_step. assumption.
  - left. rewrite transferOwnership_run. repeat case_match; try apply admin_step_refl.
    repeat split.
  - left. rewrite renounceOwnership_run. repeat case_match; try apply admin_step_refl.
    repeat split.
Qed.

Lemma first_failure_none_accepts env t ty a h p st :
  first_failure (log_checks env t ty a h p st) = None <->
  log_accepts env t ty a h p st.
Proof.
  unfold log_checks, first_failure. split.
  - intros Hff.
    repeat match type of Hff with
           | (if ?b then _ else _) = None =>
             destruct b eqn:?; [|discriminate Hff]
           end.
    repeat match goal with
           | H : negb _ = true |- _ => apply negb_true_iff in H
           | H : bool_decide _ = false |- _ => apply bool_decide_eq_false in H
           | H : (_ <? _) = true |- _ => apply Z.ltb_lt in H
           | H : (_ <=? _) = true |- _ => apply Z.leb_le in H
           end.
    constructor; try assumption; lia.
  - intros [].
    rewrite acc_authorized0, acc_not_paused0, acc_fresh0.
    rewrite !bool_decide_eq_false_2 by assumption. cbn [negb].
    repeat match goal with
           | |- (if ?b then _ else _) = None =>
             replace b with true by
               (symmetry; first [apply Z.ltb_lt|apply Z.leb_le]; lia)
           end.
    reflexivity.
Qed.

(** ** The index invariant *)

Lemma ledger_ok_constructor deployer :
  deployer <> 0 -> ledger_ok (constructor deployer).
Proof.
  intros Hd. constructor; unfold record_at; cbn.
  - intros p i r. rewrite mget_empty. intros Hr. inversion Hr.
  - intros t. rewrite mget_empty. discriminate.
  - intros p i j r1 r2. rewrite mget_empty. intros Hr. inversion Hr.
  - apply mget_insert_ne. assumption.
  - reflexivity.
Qed.

Lemma ledger_ok_admin_step st st' :
  admin_step st st' -> ledger_ok st -> ledger_ok st'.
Proof.
  intros ((Ha & He & Ht & _ & _) & Hs & Hz) [].
  constructor; unfold record_at in *; rewrite ?Ha, ?He, ?Ht; try congruence; auto.
Qed.

(** The trail of [p] after a successful [logTransaction]. *)
Lemma logged_trail env t ty a h ip st p :
  mget [] (auditTrails (logged env t ty a h ip st)) p =
  if bool_decide (p = msg_sender env)
  then mget [] (auditTrails st) p ++ [newTx env t ty a h ip]
  else mget [] (auditTrails st) p.
Proof.
  cbn. destruct (bool_decide_reflect (p = msg_sender env)) as [->|Hne].
  - apply mget_insert_eq.
  - apply mget_insert_ne. congruence.
Qed.

(** A record of the state after a successful [logTransaction] is a record of
    the state before, or the new one at the end of the sender's trail. *)
Lemma logged_record_at env t ty a h ip st p i r :
  record_at (logged env t ty a h ip st) p i r <->
  record_at st p i r \/
  (p = msg_sender env /\ i = length (mget [] (auditTrails st) p) /\
   r = newTx env t ty a h ip).
Proof.
  unfold record_at. rewrite logged_trail.
  destruct (bool_decide_reflect (p = msg_sender env)) as [->|Hne].
  - rewrite lookup_app_Some. split.
    + intros [Hl|[Hge Hr]]; [left; assumption|right].
      destruct (i - length (mget [] (auditTrails st) (msg_sender env)))%nat
        as [|k] eqn:Hk; cbn in Hr; [|inversion Hr].
      inversion Hr. repeat split. lia.
    + intros [Hl|(_ & -> & ->)]; [left; assumption|right].
      split; [lia|]. rewrite Nat.sub_diag. reflexivity.
  - split; [intros Hl; left; assumption|].
    intros [Hl|(Hp & _)]; [assumption|contradiction].
Qed.

Lemma ledger_ok_logged env t ty a h ip st :
  log_accepts env t ty a h ip st -> ledger_ok st ->
  ledger_ok (logged env t ty a h ip st).
Proof.
  intros Hacc Hok.
  assert (Hold : forall p i r, record_at st p i r -> tokenId r <> t).
  { intros p i r Hr Heq. apply (ok_indexed _ Hok) in Hr as (Hex & _).
    rewrite Heq, (acc_fresh _ _ _ _ _ _ _ Hacc) in Hex. discriminate. }
  assert (Hsender : msg_sender env <> 0).
  { intros Hz. pose proof (acc_authorized _ _ _ _ _ _ _ Hacc) as Hau.
    rewrite Hz, (ok_zero _ Hok) in Hau. discriminate. }
  constructor.
  - intros p i r Hr. apply logged_record_at in Hr as [Hr|(-> & -> & ->)].
    + pose proof (Hold _ _ _ Hr) as Hne.
      apply (ok_indexed _ Hok) in Hr as (Hex & Hto & Hrest).
      cbn [logged tokenExists tokenToSME].
      rewrite !mget_insert_ne by congruence. auto.
    + cbn [logged tokenExists tokenToSME newTx tokenId smeAddress].
      rewrite !mget_insert_eq. repeat split; try assumption.
      * apply (acc_token_nonempty _ _ _ _ _ _ _ Hacc).
      * apply (acc_token_short _ _ _ _ _ _ _ Hacc).
  - intros t' Hex. cbn [logged tokenExists tokenToSME] in *.
    destruct (decide (t = t')) as [<-|Hne].
    + rewrite mget_insert_eq.
      exists (length (mget [] (auditTrails st) (msg_sender env))),
        (newTx env t ty a h ip).
      split; [|reflexivity]. apply logged_record_at. right. repeat split.
    + rewrite mget_insert_ne in Hex by assumption.
      rewrite mget_insert_ne by assumption.
      apply (ok_exists _ Hok) in Hex as (i & r & Hr & Ht).
      exists i, r. split; [|assumption]. apply logged_record_at. left. assumption.
  - intros p i j r1 r2 H1 H2 Heq.
    apply logged_record_at in H1 as [H1|(-> & -> & ->)];
      apply logged_record_at in H2 as [H2|(Hp & -> & ->)].
    + eapply (ok_unique _ Hok); eassumption.
    + exfalso. eapply Hold; [exact H1|]. exact Heq.
    + exfalso. eapply Hold; [exact H2|]. symmetry. exact Heq.
    + reflexivity.
  - cbn. apply (ok_zero _ Hok).
  - reflexivity.
Qed.

Lemma ledger_ok_execute env c st : ledger_ok st -> ledger_ok (execute env c st).
Proof.
  intros Hok. destruct (execute_cases env c st) as
    [Hadm|(t & ty & a & h & ip & _ & Hff & ->)].
  - eapply ledger_ok_admin_step; eassumption.
  - apply ledger_ok_logged; [|assumption].
    apply first_failure_none_accepts. assumption.
Qed.

Lemma reachable_ledger_ok st : reachable st -> ledger_ok st.
Proof.
  induction 1 as [d Hd|st env c _ IH].
  - apply ledger_ok_constructor. assumption.
  - apply ledger_ok_execute. assumption.
Qed.

(** Records are never removed or changed by a transaction. *)
Lemma execute_record_at env c st p i r :
  record_at st p i r -> record_at (execute env c st) p i r.
Proof.
  intros Hr. destruct (execute_cases env c st) as
    [((Ha & _) & _)|(t & ty & a & h & ip & _ & _ & ->)].
  - unfold record_at. rewrite Ha. exact Hr.
  - apply logged_record_at. left. exact Hr.
Qed.

(** ** Where a failing append stops *)

(** The state in which a failing [logTransaction] stops, before the
    transaction boundary discards it: a failed [require] has written nothing
    but the reentrancy status. *)
Lemma logTransaction_failure_state env t ty a h ip st e st' :
  logTransaction env t ty a h ip st = Failure e st' ->
  forall reason, e = Revert reason -> st' = st \/ st' = set_status ENTERED st.
Proof.
  unfold_run.
  destruct (mget false (authorizedSMEs st) (msg_sender env));
    [|intros [= <- <-]; auto].
  destruct (negb (bool_decide (_status st = ENTERED)));
    [|intros [= <- <-]; auto].
  st_simpl.
  destruct (negb (_paused st)); [|intros [= <- <-]; auto].
  destruct (0 <? Z.of_nat (String.length t)); [|intros [= <- <-]; auto].
  destruct (Z.of_nat (String.length t) <=? 64); [|intros [= <- <-]; auto].
  destruct (0 <? a); [|intros [= <- <-]; auto].
  st_simpl.
  destruct (negb (mget false (tokenExists st) t)); [|intros [= <- <-]; auto].
  destruct (negb (bool_decide (h = 0))); [|intros [= <- <-]; auto].
  destruct (0 <? Z.of_nat (String.length ty)); [|intros [= <- <-]; auto].
  destruct (0 <? Z.of_nat (String.length ip)); [|intros [= <- <-]; auto].
  st_simpl.
  destruct (mget 0 (transactionCounts st) (msg_sender env) + 1 <=? MAX_UINT256);
    [|intros [= <- <-]; discriminate].
  st_simpl.
  destruct (totalTransactions st + 1 <=? MAX_UINT256);
    [discriminate|intros [= <- <-]; discriminate].
Qed.

(** ** The example states are reachable *)

Lemma demo_deployed_reachable : reachable demo_deployed.
Proof. apply reachable_deployed. discriminate. Defined.

Lemma demo_logged_reachable : reachable demo_logged.
Proof. do 2 apply reachable_step. exact demo_deployed_reachable. Defined.

Lemma demo_deauthorized_reachable : reachable demo_deauthorized.
Proof. apply reachable_step. exact demo_logged_reachable. Defined.

Lemma demo_paused_reachable : reachable demo_paused.
Proof. apply reachable_step. exact demo_logged_reachable. Defined.

Example demo_logged_trail :
  getAuditTrail demo_logged 5 = inr [demo_T1] /\ totalTransactions demo_logged = 1.
Proof. split; reflexivity. Qed.

Example demo_deauthorized_flag :
  isAuthorizedSME demo_deauthorized 5 = inr false /\
  verifyToken demo_deauthorized "T1" 5 = inr (true, demo_T1).
Proof. split; reflexivity. Qed.

(** ** Token uniqueness *)

(** C1. In every reachable state no two records, in the same trail or in the
    trails of two principals, carry the same [tokenId]; a [logTransaction]
    with the [tokenId] of a record that exists is rejected whoever sends it
    and whether or not the record's principal is still authorized (with the
    duplicate reason when the other guards pass); and no transaction removes
    or changes a record, so this holds over the whole lifetime. *)
Theorem token_unique st :
  reachable st ->
  (forall p1 i1 r1 p2 i2 r2,
     record_at st p1 i1 r1 -> record_at st p2 i2 r2 ->
     tokenId r1 = tokenId r2 -> p1 = p2 /\ i1 = i2 /\ r1 = r2) /\
  (forall p i r env ty a h ip,
     record_at st p i r ->
     (exists e, call (logTransaction env (tokenId r) ty a h ip) st = (st, inl e)) /\
     (mget false (authorizedSMEs st) (msg_sender env) = true ->
      _paused st = false -> 0 < a ->
      call (logTransaction env (tokenId r) ty a h ip) st =
        (st, inl (Revert "AuditTrail: Token already exists")))) /\
  (forall p i r env c,
     record_at st p i r -> record_at (execute env c st) p i r).
Proof.
  intros Hreach. pose proof (reachable_ledger_ok _ Hreach) as Hok.
  split; [|split].
  - intros p1 i1 r1 p2 i2 r2 H1 H2 Heq.
    destruct (ok_indexed _ Hok _ _ _ H1) as (_ & Hp1 & _).
    destruct (ok_indexed _ Hok _ _ _ H2) as (_ & Hp2 & _).
    assert (p1 = p2) as <- by congruence.
    assert (i1 = i2) as <- by (eapply (ok_unique _ Hok); eassumption).
    unfold record_at in *. split; [reflexivity|split; [reflexivity|congruence]].
  - intros p i r env ty a h ip Hr.
    destruct (ok_indexed _ Hok _ _ _ Hr) as (Hex & _ & _ & _ & Hlen).
    split.
    + rewrite logTransaction_run.
      destruct (first_failure _) eqn:Hff; [eexists; reflexivity|].
      apply first_failure_none_accepts in Hff.
      rewrite (acc_fresh _ _ _ _ _ _ _ Hff) in Hex. discriminate.
    + intros Hau Hp Ha. rewrite logTransaction_run.
      unfold log_checks, first_failure.
      rewrite Hau, Hp, Hex, (ok_status _ Hok). cbn [negb].
      rewrite bool_decide_eq_false_2 by discriminate. cbn [negb].
      replace (0 <? Z.of_nat (String.length (tokenId r))) with true
        by (symmetry; apply Z.ltb_lt; lia).
      replace (Z.of_nat (String.length (tokenId r)) <=? 64) with true
        by (symmetry; apply Z.leb_le; lia).
      replace (0 <? a) with true by (symmetry; apply Z.ltb_lt; lia).
      reflexivity.
  - intros p i r env c. apply execute_record_at.
Qed.

(** The record "T1" of principal 5 is there after 5 was deauthorized, and
    principal 1 cannot log "T1" again. *)
Lemma token_unique_witness :
  reachable demo_deauthorized /\
  call (logTransaction (mkEnv 1 2000) "T1" "INVOICE" 50 78 "ptr2") demo_deauthorized =
    (demo_deauthorized, inl (Revert "AuditTrail: Token already exists")).
Proof.
  split; [exact demo_deauthorized_reachable|].
  apply (proj2 (proj1 (proj2 (token_unique demo_deauthorized
           demo_deauthorized_reachable)) 5 0%nat demo_T1 (mkEnv 1 2000)
           "INVOICE" 50 78 "ptr2" eq_refl));
    reflexivity.
Defined.

(** ** Atomic rejection *)

(** C2. When [logTransaction] rejects, whatever the input, the state and the
    reason, the state after the call is the state before it: trails,
    [tokenExists], [tokenToSME], counts and total are unchanged.  For a
    failed [require] this already holds of the state in which the function
    stopped, before the transaction boundary discards it. *)
Theorem rejected_append_atomic env t ty a h ip st e :
  (call (logTransaction env t ty a h ip) st).2 = inl e ->
  (call (logTransaction env t ty a h ip) st).1 = st /\
  same_ledger st (call (logTransaction env t ty a h ip) st).1 /\
  exists st', logTransaction env t ty a h ip st = Failure e st' /\
    (forall reason, e = Revert reason -> same_ledger st st').
Proof.
  unfold call.
  destruct (logTransaction env t ty a h ip st) as [b st'|e' st'] eqn:Hrun;
    cbn [fst snd]; intros [= <-].
  split; [reflexivity|]. split; [apply same_ledger_refl|].
  exists st'. split; [reflexivity|].
  intros reason Hre.
  destruct (logTransaction_failure_state _ _ _ _ _ _ _ _ _ Hrun _ Hre) as [->| ->];
    repeat split.
Qed.

(** A duplicate "T1" from another authorized principal changes nothing. *)
Lemma rejected_append_atomic_witness :
  (call (logTransaction (mkEnv 1 2000) "T1" "INVOICE" 50 78 "ptr2") demo_logged).1
  = demo_logged.
Proof.
  apply (rejected_append_atomic (mkEnv 1 2000) "T1" "INVOICE" 50 78 "ptr2"
           demo_logged (Revert "AuditTrail: Token already exists")).
  reflexivity.
Defined.

(** ** Counters *)

Lemma map_sum_empty {K V} `{Countable K} (g : V -> Z) :
  map_sum g (∅ : gmap K V) = 0.
Proof. unfold map_sum. apply map_fold_empty. Qed.

Lemma map_sum_insert_None {K V} `{Countable K} (g : V -> Z) (m : gmap K V) k v :
  m !! k = None -> map_sum g (<[k := v]> m) = g v + map_sum g m.
Proof.
  intros Hk. unfold map_sum. rewrite map_fold_insert_L; [reflexivity| |assumption].
  intros j1 j2 z1 z2 y _ _ _. cbn beta. lia.
Qed.

(** Writing [m[k] = v] changes the sum by the difference at [k]; [d] is the
    default read at an absent key and adds nothing. *)
Lemma map_sum_insert {K V} `{Countable K} (g : V -> Z) (d : V) (m : gmap K V) k v :
  g d = 0 ->
  map_sum g (<[k := v]> m) = map_sum g m - g (mget d m k) + g v.
Proof.
  intros Hd. unfold mget. destruct (m !! k) as [x|] eqn:Hk; cbn.
  - assert (map_sum g (<[k := v]> m) = g v + map_sum g (delete k m)) as E1.
    { rewrite <- insert_delete_eq. apply map_sum_insert_None, lookup_delete_eq. }
    assert (map_sum g m = g x + map_sum g (delete k m)) as E2.
    { rewrite <- (insert_delete_id m k x) at 1 by assumption.
      apply map_sum_insert_None, lookup_delete_eq. }
    lia.
  - rewrite map_sum_insert_None by assumption. lia.
Qed.

Lemma count_principal_nil p : count_principal p [] = 0.
Proof. reflexivity. Qed.

Lemma count_principal_snoc p l r :
  count_principal p (l ++ [r]) =
  count_principal p l + (if bool_decide (smeAddress r = p) then 1 else 0).
Proof.
  unfold count_principal. rewrite filter_app, length_app.
  destruct (bool_decide_reflect (smeAddress r = p)) as [Hp|Hp].
  - rewrite filter_cons_True by assumption. cbn. lia.
  - rewrite filter_cons_False by assumption. cbn. lia.
Qed.

Lemma counters_ok_constructor deployer : counters_ok (constructor deployer).
Proof.
  split.
  - intros p. unfold records_of. cbn. rewrite mget_empty, map_sum_empty. reflexivity.
  - unfold sum_counts. cbn. rewrite map_sum_empty. reflexivity.
Qed.

Lemma counters_ok_same_ledger st st' :
  same_ledger st st' -> counters_ok st -> counters_ok st'.
Proof.
  intros (Ha & _ & _ & Hc & Ht) [Hcount Htotal].
  unfold counters_ok, records_of, sum_counts. rewrite Ha, Hc, Ht. split; assumption.
Qed.

Lemma counters_ok_logged env t ty a h ip st :
  counters_ok st -> counters_ok (logged env t ty a h ip st).
Proof.
  intros [Hcount Htotal]. split.
  - intros p. unfold records_of. cbn [logged auditTrails transactionCounts].
    rewrite (map_sum_insert _ []) by reflexivity.
    rewrite count_principal_snoc. cbn [newTx smeAddress].
    fold (records_of p st). rewrite <- Hcount.
    destruct (bool_decide_reflect (msg_sender env = p)) as [->|Hne].
    + rewrite mget_insert_eq. lia.
    + rewrite mget_insert_ne by assumption. lia.
  - unfold sum_counts. cbn [logged totalTransactions transactionCounts].
    rewrite (map_sum_insert _ 0) by reflexivity.
    fold (sum_counts st). unfold id. lia.
Qed.

Lemma counters_ok_execute env c st : counters_ok st -> counters_ok (execute env c st).
Proof.
  intros Hok. destruct (execute_cases env c st) as
    [(Hled & _)|(t & ty & a & h & ip & _ & _ & ->)].
  - eapply counters_ok_same_ledger; eassumption.
  - apply counters_ok_logged. assumption.
Qed.

(** C3. In every reachable state [transactionCounts[p]] is the number of
    committed records whose principal field is [p], and [totalTransactions]
    is the sum of [transactionCounts] over all principals; every transaction
    ([logTransaction], [authorizeSME], [batchAuthorizeSMEs], [pause],
    [unpause], and the inherited ownership functions) preserves this,
    whether it succeeds or reverts. *)
Theorem counters_consistent :
  (forall st env c, counters_ok st -> counters_ok (execute env c st)) /\
  (forall st, reachable st ->
     (forall p, mget 0 (transactionCounts st) p = records_of p st) /\
     totalTransactions st = sum_counts st).
Proof.
  split.
  - intros st env c. apply counters_ok_execute.
  - induction 1 as [d Hd|st env c _ IH].
    + apply counters_ok_constructor.
    + apply counters_ok_execute. exact IH.
Qed.

Example demo_logged_counters :
  mget 0 (transactionCounts demo_logged) 5 = 1 /\ records_of 5 demo_logged = 1 /\
  totalTransactions demo_logged = 1 /\ sum_counts demo_logged = 1.
Proof. repeat split; reflexivity. Qed.

Lemma counters_consistent_witness :
  reachable demo_logged /\
  mget 0 (transactionCounts demo_logged) 5 = records_of 5 demo_logged /\
  totalTransactions demo_logged = sum_counts demo_logged.
Proof.
  split; [exact demo_logged_reachable|].
  destruct (proj2 counters_consistent demo_logged demo_logged_reachable)
    as [Hcount Htotal].
  split; [apply Hcount|exact Htotal].
Defined.

(** ** Verification reads *)

Lemma validTokenIdR_ok t :
  (0 < String.length t <= 64)%nat -> validTokenIdR t = inr tt.
Proof.
  intros Hlen. unfold validTokenIdR, requireR, mbind, Result_bind.
  replace (0 <? Z.of_nat (String.length t)) with true
    by (symmetry; apply Z.ltb_lt; lia).
  replace (Z.of_nat (String.length t) <=? 64) with true
    by (symmetry; apply Z.leb_le; lia).
  reflexivity.
Qed.

Lemma validTokenIdR_empty t :
  String.length t = 0%nat ->
  validTokenIdR t = inl (Revert "AuditTrail: Token ID cannot be empty").
Proof. intros Hlen. unfold validTokenIdR. rewrite Hlen. reflexivity. Qed.

Lemma validTokenIdR_long t :
  (64 < String.length t)%nat ->
  validTokenIdR t = inl (Revert "AuditTrail: Token ID too long").
Proof.
  intros Hlen. unfold validTokenIdR, requireR, mbind, Result_bind.
  replace (0 <? Z.of_nat (String.length t)) with true
    by (symmetry; apply Z.ltb_lt; lia).
  replace (Z.of_nat (String.length t) <=? 64) with false
    by (symmetry; apply Z.leb_gt; lia).
  reflexivity.
Qed.

Lemma validTokenIdR_inv t u :
  validTokenIdR t = inr u -> (0 < String.length t <= 64)%nat.
Proof.
  unfold validTokenIdR, requireR, mbind, Result_bind.
  destruct (0 <? Z.of_nat (String.length t)) eqn:H1; [|discriminate].
  destruct (Z.of_nat (String.length t) <=? 64) eqn:H2; [|discriminate].
  intros _. apply Z.ltb_lt in H1. apply Z.leb_le in H2. lia.
Qed.

(** The scan returns the first record of the trail with the token, or
    [(false, emptyTx)] when the trail has none. *)
Lemma verifyToken_scan_found l t r :
  verifyToken_scan l t = (true, r) ->
  exists i, l !! i = Some r /\ tokenId r = t /\
    forall j r', (j < i)%nat -> l !! j = Some r' -> tokenId r' <> t.
Proof.
  induction l as [|x l IH]; cbn [verifyToken_scan]; [discriminate|].
  destruct (String.eqb_spec (tokenId x) t) as [Heq|Hne].
  - intros [= <-]. exists 0%nat. split; [reflexivity|]. split; [assumption|].
    intros j r' Hj. lia.
  - intros Hscan. destruct (IH Hscan) as (i & Hi & Ht & Hfirst).
    exists (S i). split; [exact Hi|]. split; [exact Ht|].
    intros [|j] r' Hj Hr'; cbn in Hr'.
    + injection Hr' as <-. exact Hne.
    + eapply Hfirst; [|exact Hr']. lia.
Qed.

Lemma verifyToken_scan_absent l t tx :
  verifyToken_scan l t = (false, tx) ->
  tx = emptyTx /\ forall i r, l !! i = Some r -> tokenId r <> t.
Proof.
  induction l as [|x l IH]; cbn [verifyToken_scan].
  - intros [= <-]. split; [reflexivity|]. intros i r Hr. inversion Hr.
  - destruct (String.eqb_spec (tokenId x) t) as [Heq|Hne]; [discriminate|].
    intros Hscan. destruct (IH Hscan) as [-> Hall]. split; [reflexivity|].
    intros [|i] r Hr; cbn in Hr.
    + injection Hr as <-. exact Hne.
    + eapply Hall. exact Hr.
Qed.

Lemma verifyToken_ok st t p :
  (0 < String.length t <= 64)%nat -> p <> 0 ->
  verifyToken st t p = inr (verifyToken_scan (mget [] (auditTrails st) p) t).
Proof.
  intros Hlen Hp. unfold verifyToken. rewrite validTokenIdR_ok by assumption.
  unfold requireR, mbind, Result_bind, mret, Result_ret.
  rewrite bool_decide_eq_false_2 by assumption. reflexivity.
Qed.

Lemma verifyToken_inv st t p res :
  verifyToken st t p = inr res ->
  (0 < String.length t <= 64)%nat /\ p <> 0 /\
  res = verifyToken_scan (mget [] (auditTrails st) p) t.
Proof.
  unfold verifyToken. destruct (validTokenIdR t) as [e|[]] eqn:Hv;
    cbn [mbind Result_bind]; [discriminate|].
  apply validTokenIdR_inv in Hv. unfold requireR.
  destruct (bool_decide_reflect (p = 0)) as [|Hp]; cbn; [discriminate|].
  intros [= <-]. auto.
Qed.

(** [verifyDataIntegrity] once its own guards pass: the answer of
    [verifyToken], then the comparison of the hashes. *)
Lemma verifyDataIntegrity_ok st t p h :
  (0 < String.length t <= 64)%nat -> p <> 0 -> h <> 0 ->
  verifyDataIntegrity st t p h =
  inr (let res := verifyToken_scan (mget [] (auditTrails st) p) t in
       res.1 && bool_decide (dataHash res.2 = h)).
Proof.
  intros Hlen Hp Hh. unfold verifyDataIntegrity.
  rewrite validTokenIdR_ok, verifyToken_ok by assumption.
  unfold requireR, mbind, Result_bind, mret, Result_ret.
  rewrite !bool_decide_eq_false_2 by assumption. cbn [negb].
  destruct (verifyToken_scan _ _) as [[|] tx]; reflexivity.
Qed.

Lemma verifyDataIntegrity_inv st t p h b :
  verifyDataIntegrity st t p h = inr b ->
  (0 < String.length t <= 64)%nat /\ p <> 0 /\ h <> 0.
Proof.
  unfold verifyDataIntegrity. destruct (validTokenIdR t) as [e|[]] eqn:Hv;
    cbn [mbind Result_bind]; [discriminate|].
  apply validTokenIdR_inv in Hv. unfold requireR.
  destruct (bool_decide_reflect (p = 0)) as [|Hp]; cbn [negb]; [discriminate|].
  destruct (bool_decide_reflect (h = 0)) as [|Hh]; cbn [negb]; [discriminate|].
  auto.
Qed.

(** C4, as amended. [verifyDataIntegrity] composes [verifyToken]: it returns
    true only if [verifyToken] finds a record with that [tokenId] in that
    principal's trail and the record's [dataHash] equals [_expectedHash];
    when [verifyToken] reports the token absent it returns false for a
    non-zero [_expectedHash] and reverts for the zero hash. *)
Theorem verifyIntegrity_correct st t p h :
  (verifyDataIntegrity st t p h = inr true ->
   exists i r, record_at st p i r /\ tokenId r = t /\ dataHash r = h /\
     verifyToken st t p = inr (true, r)) /\
  (forall b tx, verifyToken st t p = inr (b, tx) -> h <> 0 ->
     verifyDataIntegrity st t p h = inr (b && bool_decide (dataHash tx = h))) /\
  (forall tx, verifyToken st t p = inr (false, tx) -> h <> 0 ->
     verifyDataIntegrity st t p h = inr false) /\
  (forall tx, verifyToken st t p = inr (false, tx) -> h = 0 ->
     verifyDataIntegrity st t p h = inl (Revert "AuditTrail: Invalid expected hash")).
Proof.
  split; [|split; [|split]].
  - intros Htrue.
    destruct (verifyDataIntegrity_inv _ _ _ _ _ Htrue) as (Hlen & Hp & Hh).
    rewrite verifyDataIntegrity_ok in Htrue by assumption.
    destruct (verifyToken_scan (mget [] (auditTrails st) p) t) as [b tx] eqn:Hscan.
    cbn in Htrue. injection Htrue as Htrue.
    apply andb_true_iff in Htrue as [-> Hhash].
    apply bool_decide_eq_true in Hhash.
    destruct (verifyToken_scan_found _ _ _ Hscan) as (i & Hi & Ht & _).
    exists i, tx. repeat split; try assumption.
    rewrite verifyToken_ok, Hscan by assumption. reflexivity.
  - intros b tx Hv Hh.
    destruct (verifyToken_inv _ _ _ _ Hv) as (Hlen & Hp & Hres).
    rewrite verifyDataIntegrity_ok, <- Hres by assumption. reflexivity.
  - intros tx Hv Hh.
    destruct (verifyToken_inv _ _ _ _ Hv) as (Hlen & Hp & Hres).
    rewrite verifyDataIntegrity_ok, <- Hres by assumption. reflexivity.
  - intros tx Hv ->.
    destruct (verifyToken_inv _ _ _ _ Hv) as (Hlen & Hp & Hres).
    unfold verifyDataIntegrity. rewrite validTokenIdR_ok by assumption.
    unfold requireR, mbind, Result_bind.
    rewrite bool_decide_eq_false_2 by assumption. reflexivity.
Qed.

Lemma verifyIntegrity_correct_witness :
  exists i r, record_at demo_logged 5 i r /\ tokenId r = "T1" /\ dataHash r = 77 /\
    verifyToken demo_logged "T1" 5 = inr (true, r).
Proof.
  apply (proj1 (verifyIntegrity_correct demo_logged "T1" 5 77)). reflexivity.
Defined.

(** C4 as stated fails: "T2" is absent from the trail of principal 5, and for
    the zero hash [verifyDataIntegrity] reverts, it does not return false. *)
Lemma verifyIntegrity_absent_zero_hash :
  verifyToken demo_logged "T2" 5 = inr (false, emptyTx) /\
  verifyDataIntegrity demo_logged "T2" 5 0 =
    inl (Revert "AuditTrail: Invalid expected hash") /\
  verifyDataIntegrity demo_logged "T2" 5 0 <> inr false.
Proof. split; [reflexivity|split; [reflexivity|discriminate]]. Qed.

(** ** Input errors of the reads *)

(** C10. [verifyToken] and [verifyDataIntegrity] revert, they do not answer
    [(false, emptyTx)] or [false], for a zero principal address and for a
    [tokenId] that is empty or longer than 64 bytes; [verifyDataIntegrity]
    also reverts for the zero [_expectedHash]. *)
Theorem read_input_errors st t p h :
  (p = 0 \/ String.length t = 0%nat \/ (64 < String.length t)%nat ->
   (exists reason, verifyToken st t p = inl (Revert reason)) /\
   (exists reason, verifyDataIntegrity st t p h = inl (Revert reason))) /\
  (h = 0 -> exists reason, verifyDataIntegrity st t p h = inl (Revert reason)) /\
  (String.length t = 0%nat ->
   verifyToken st t p = inl (Revert "AuditTrail: Token ID cannot be empty") /\
   verifyDataIntegrity st t p h = inl (Revert "AuditTrail: Token ID cannot be empty")) /\
  ((64 < String.length t)%nat ->
   verifyToken st t p = inl (Revert "AuditTrail: Token ID too long") /\
   verifyDataIntegrity st t p h = inl (Revert "AuditTrail: Token ID too long")) /\
  ((0 < String.length t <= 64)%nat -> p = 0 ->
   verifyToken st t p = inl (Revert "AuditTrail: Invalid SME address") /\
   verifyDataIntegrity st t p h = inl (Revert "AuditTrail: Invalid SME address")) /\
  ((0 < String.length t <= 64)%nat -> p <> 0 -> h = 0 ->
   verifyDataIntegrity st t p h = inl (Revert "AuditTrail: Invalid expected hash")).
Proof.
  assert (Hempty : String.length t = 0%nat ->
    verifyToken st t p = inl (Revert "AuditTrail: Token ID cannot be empty") /\
    verifyDataIntegrity st t p h = inl (Revert "AuditTrail: Token ID cannot be empty")).
  { intros Hlen. unfold verifyToken, verifyDataIntegrity.
    rewrite validTokenIdR_empty by assumption. split; reflexivity. }
  assert (Hlong : (64 < String.length t)%nat ->
    verifyToken st t p = inl (Revert "AuditTrail: Token ID too long") /\
    verifyDataIntegrity st t p h = inl (Revert "AuditTrail: Token ID too long")).
  { intros Hlen. unfold verifyToken, verifyDataIntegrity.
    rewrite validTokenIdR_long by assumption. split; reflexivity. }
  assert (Hzero : (0 < String.length t <= 64)%nat -> p = 0 ->
    verifyToken st t p = inl (Revert "AuditTrail: Invalid SME address") /\
    verifyDataIntegrity st t p h = inl (Revert "AuditTrail: Invalid SME address")).
  { intros Hlen ->. unfold verifyToken, verifyDataIntegrity.
    rewrite validTokenIdR_ok by assumption. split; reflexivity. }
  assert (Hhash : (0 < String.length t <= 64)%nat -> p <> 0 -> h = 0 ->
    verifyDataIntegrity st t p h = inl (Revert "AuditTrail: Invalid expected hash")).
  { intros Hlen Hp ->. unfold verifyDataIntegrity.
    rewrite validTokenIdR_ok by assumption.
    unfold requireR, mbind, Result_bind.
    rewrite bool_decide_eq_false_2 by assumption. reflexivity. }
  assert (Hcases : (String.length t = 0 \/ 64 < String.length t \/
                    0 < String.length t <= 64)%nat) by lia.
  split; [|split; [|repeat split; tauto]].
  - intros Hbad.
    destruct Hcases as [Hl|[Hl|Hl]].
    + destruct (Hempty Hl) as [-> ->]. split; eexists; reflexivity.
    + destruct (Hlong Hl) as [-> ->]. split; eexists; reflexivity.
    + destruct Hbad as [Hp|[Hb|Hb]]; [|lia|lia].
      destruct (Hzero Hl Hp) as [-> ->]. split; eexists; reflexivity.
  - intros Hh. destruct Hcases as [Hl|[Hl|Hl]].
    + destruct (Hempty Hl) as [_ ->]. eexists; reflexivity.
    + destruct (Hlong Hl) as [_ ->]. eexists; reflexivity.
    + destruct (decide (p = 0)) as [Hp|Hp].
      * destruct (Hzero Hl Hp) as [_ ->]. eexists; reflexivity.
      * rewrite (Hhash Hl Hp Hh). eexists; reflexivity.
Qed.

Lemma read_input_errors_witness :
  verifyDataIntegrity demo_logged "T1" 5 0 =
    inl (Revert "AuditTrail: Invalid expected hash").
Proof.
  apply (proj2 (proj2 (proj2 (proj2 (proj2
           (read_input_errors demo_logged "T1" 5 0)))))).
  - cbn. lia.
  - discriminate.
  - reflexivity.
Defined.

(** ** Reads depend on the ledger part only *)

Lemma reads_same_ledger st st' :
  same_ledger st st' ->
  (forall p i r, record_at st' p i r <-> record_at st p i r) /\
  (forall p, getAuditTrail st' p = getAuditTrail st p) /\
  (forall t p, verifyToken st' t p = verifyToken st t p) /\
  (forall t p h, verifyDataIntegrity st' t p h = verifyDataIntegrity st t p h) /\
  (forall t, getTransactionByTokenId st' t = getTransactionByTokenId st t) /\
  (forall p, getTransactionCount st' p = getTransactionCount st p) /\
  getTotalTransactions st' = getTotalTransactions st.
Proof.
  intros (Ha & He & Ht & Hc & Htot).
  assert (Hv : forall t p, verifyToken st' t p = verifyToken st t p).
  { intros t p. unfold verifyToken. rewrite Ha. reflexivity. }
  split; [intros p i r; unfold record_at; rewrite Ha; reflexivity|].
  split; [intros p; unfold getAuditTrail; rewrite Ha; reflexivity|].
  split; [exact Hv|].
  split; [intros t p h; unfold verifyDataIntegrity; rewrite Hv; reflexivity|].
  split; [intros t; unfold getTransactionByTokenId; rewrite Hv, He, Ht; reflexivity|].
  split; [intros p; unfold getTransactionCount; rewrite Hc; reflexivity|].
  unfold getTotalTransactions. rewrite Htot. reflexivity.
Qed.

(** ** Deauthorization *)

(** C6. [authorizeSME(P, false)] changes the authorization flag of [P] and
    nothing else in storage (it emits one event): every record and trail,
    [tokenExists], [tokenToSME], the counters, the pause flag, the owner and
    the flags of the other principals are unchanged, and [getAuditTrail],
    [verifyToken] and [verifyDataIntegrity] answer as before; once it has
    succeeded [P] is not authorized and cannot append. *)
Theorem deauthorize_frame env P st :
  let st' := execute env (CallAuthorizeSME P false) st in
  same_ledger st st' /\
  _paused st' = _paused st /\ _owner st' = _owner st /\
  _status st' = _status st /\
  (forall Q, Q <> P ->
     mget false (authorizedSMEs st') Q = mget false (authorizedSMEs st) Q) /\
  (forall p i r, record_at st' p i r <-> record_at st p i r) /\
  (forall p, getAuditTrail st' p = getAuditTrail st p) /\
  (forall t p, verifyToken st' t p = verifyToken st t p) /\
  (forall t p h, verifyDataIntegrity st' t p h = verifyDataIntegrity st t p h) /\
  (forall t, getTransactionByTokenId st' t = getTransactionByTokenId st t) /\
  (_owner st = msg_sender env -> P <> 0 ->
   st' = authorized P false st /\
   mget false (authorizedSMEs st') P = false /\
   forall env' t ty a h ip, msg_sender env' = P ->
     call (logTransaction env' t ty a h ip) st' =
       (st', inl (Revert "AuditTrail: Not authorized SME"))).
Proof.
  intros st'.
  assert (Hcases : st' = st \/
    (_owner st = msg_sender env /\ P <> 0 /\ st' = authorized P false st)).
  { subst st'. cbn [execute]. rewrite authorizeSME_run.
    destruct (bool_decide_reflect (_owner st = msg_sender env)); [|left; reflexivity].
    destruct (bool_decide_reflect (P = 0)); [left; reflexivity|].
    right. auto. }
  assert (Hled : same_ledger st st').
  { destruct Hcases as [->|(_ & _ & ->)];
      [apply same_ledger_refl|apply authorized_ledger]. }
  destruct (reads_same_ledger _ _ Hled) as (Hrec & Htrail & Hver & Hint & Hby & _).
  split; [exact Hled|].
  split; [destruct Hcases as [->|(_ & _ & ->)]; reflexivity|].
  split; [destruct Hcases as [->|(_ & _ & ->)]; reflexivity|].
  split; [destruct Hcases as [->|(_ & _ & ->)]; reflexivity|].
  split.
  { intros Q HQ. destruct Hcases as [->|(_ & _ & ->)]; [reflexivity|].
    cbn. apply mget_insert_ne. congruence. }
  do 5 (split; [assumption|]).
  intros Hown HP.
  assert (Hst' : st' = authorized P false st).
  { subst st'. cbn [execute]. rewrite authorizeSME_run.
    rewrite bool_decide_eq_true_2, bool_decide_eq_false_2 by assumption.
    reflexivity. }
  assert (Hflag : mget false (authorizedSMEs st') P = false).
  { rewrite Hst'. cbn. apply mget_insert_eq. }
  split; [exact Hst'|]. split; [exact Hflag|].
  intros env' t ty a h ip Hsender. rewrite logTransaction_run.
  unfold log_checks, first_failure. rewrite Hsender, Hflag. reflexivity.
Qed.

(** After the owner deauthorizes principal 5, which holds the record "T1",
    principal 5 cannot append and "T1" is still verified. *)
Lemma deauthorize_frame_witness :
  call (logTransaction (mkEnv 5 2000) "T9" "PAYMENT" 1 1 "p") demo_deauthorized =
    (demo_deauthorized, inl (Revert "AuditTrail: Not authorized SME")) /\
  verifyToken demo_deauthorized "T1" 5 = verifyToken demo_logged "T1" 5.
Proof.
  pose proof (deauthorize_frame (mkEnv 1 1001) 5 demo_logged) as H.
  cbv zeta in H.
  destruct H as (_ & _ & _ & _ & _ & _ & _ & Hver & _ & _ & Hdeauth).
  split.
  - apply (proj2 (proj2 (Hdeauth eq_refl ltac:(discriminate)))). reflexivity.
  - apply Hver.
Defined.

(** ** Order of the preconditions of an append *)

(** C5, as amended. In a reachable state [logTransaction] reports the first
    violated precondition in the order: caller authorized; not paused;
    tokenId non-empty; tokenId at most 64 bytes; amount > 0; tokenId not
    already used; data hash non-zero; transaction type non-empty; IPFS hash
    non-empty.  When all hold the append succeeds, unless a counter would
    overflow. *)
Theorem append_check_order env t ty a h ip st :
  reachable st ->
  call (logTransaction env t ty a h ip) st =
  match first_failure (code_order_checks env t ty a h ip st) with
  | Some e => (st, inl e)
  | None =>
    if (mget 0 (transactionCounts st) (msg_sender env) + 1 <=? MAX_UINT256)
       && (totalTransactions st + 1 <=? MAX_UINT256)
    then (logged env t ty a h ip st, inr true)
    else (st, inl (Panic 17))
  end.
Proof.
  intros Hreach. rewrite logTransaction_run.
  unfold log_checks, code_order_checks, first_failure.
  rewrite (ok_status _ (reachable_ledger_ok _ Hreach)).
  rewrite bool_decide_eq_false_2 by discriminate. cbn [negb].
  repeat match goal with
         | |- context [if ?b then _ else _] => destruct b; try reflexivity
         end.
Qed.

(** While paused, an unauthorized caller gets the authorization reason. *)
Lemma append_check_order_witness :
  call (logTransaction (mkEnv 9 2000) "T2" "PAYMENT" 1 1 "p") demo_paused =
    (demo_paused, inl (Revert "AuditTrail: Not authorized SME")).
Proof.
  apply (append_check_order (mkEnv 9 2000) "T2" "PAYMENT" 1 1 "p" demo_paused
           demo_paused_reachable).
Defined.

(** C5 as stated fails.  While paused, an unauthorized caller is rejected
    with the authorization reason where the order of the spec gives the
    paused reason; and a duplicate tokenId sent with a zero amount is
    rejected with the amount reason where the order of the spec gives the
    duplicate reason. *)
Lemma append_order_of_spec_fails :
  (reachable demo_paused /\
   first_failure (spec_order_checks (mkEnv 9 2000) "T2" "PAYMENT" 1 1 "p" demo_paused)
     = Some (Revert "Pausable: paused") /\
   (call (logTransaction (mkEnv 9 2000) "T2" "PAYMENT" 1 1 "p") demo_paused).2
     = inl (Revert "AuditTrail: Not authorized SME")) /\
  (reachable demo_logged /\
   first_failure (spec_order_checks (mkEnv 1 2000) "T1" "PAYMENT" 0 1 "p" demo_logged)
     = Some (Revert "AuditTrail: Token already exists") /\
   (call (logTransaction (mkEnv 1 2000) "T1" "PAYMENT" 0 1 "p") demo_logged).2
     = inl (Revert "AuditTrail: Amount must be greater than zero")).
Proof.
  split.
  - split; [exact demo_paused_reachable|]. split; reflexivity.
  - split; [exact demo_logged_reachable|]. split; reflexivity.
Qed.

(** ** Pausing *)

Lemma log_checks_storage_eq env t ty a h ip st st' :
  storage_eq st st' ->
  log_checks env t ty a h ip st' = log_checks env t ty a h ip st.
Proof.
  intros ((Ha & He & Ht & Hc & Htot) & Hau & Ho & Hs & Hp).
  unfold log_checks. rewrite He, Hc, Htot, Hau, Hs, Hp. reflexivity.
Qed.

Lemma logged_storage_eq env t ty a h ip st st' :
  storage_eq st st' ->
  storage_eq (logged env t ty a h ip st) (logged env t ty a h ip st').
Proof.
  intros ((Ha & He & Ht & Hc & Htot) & Hau & Ho & Hs & Hp).
  unfold storage_eq, same_ledger. cbn.
  rewrite Ha, He, Ht, Hc, Htot, Hau, Ho, Hp. repeat split.
Qed.

(** An append answers the same in two states with the same storage, and
    leaves the same storage. *)
Lemma logTransaction_storage_eq env t ty a h ip st st' :
  storage_eq st st' ->
  (call (logTransaction env t ty a h ip) st').2 =
    (call (logTransaction env t ty a h ip) st).2 /\
  storage_eq (call (logTransaction env t ty a h ip) st).1
             (call (logTransaction env t ty a h ip) st').1.
Proof.
  intros Heq. rewrite !logTransaction_run.
  rewrite (log_checks_storage_eq _ _ _ _ _ _ _ _ Heq).
  destruct (first_failure _); cbn [fst snd].
  - split; [reflexivity|exact Heq].
  - split; [reflexivity|apply logged_storage_eq; exact Heq].
Qed.

(** C7, as amended. In a reachable state whose pause flag is set,
    [logTransaction] fails for every caller and every argument and leaves
    the state unchanged, with the paused reason for an authorized caller and
    the authorization reason for any other; pausing leaves the answers of
    the reads as they were; and after the owner pauses and unpauses, an
    append is accepted or rejected as before the pause, with the same
    answer and the same resulting storage. *)
Theorem pause_gating :
  (forall st env t ty a h ip,
     reachable st -> _paused st = true ->
     call (logTransaction env t ty a h ip) st =
       (st, inl (Revert (if mget false (authorizedSMEs st) (msg_sender env)
                         then "Pausable: paused"
                         else "AuditTrail: Not authorized SME")))) /\
  (forall st env,
     let st' := execute env CallPause st in
     (forall p, getAuditTrail st' p = getAuditTrail st p) /\
     (forall t p, verifyToken st' t p = verifyToken st t p) /\
     (forall t p h, verifyDataIntegrity st' t p h = verifyDataIntegrity st t p h) /\
     (forall t, getTransactionByTokenId st' t = getTransactionByTokenId st t)) /\
  (forall st env1 env2,
     _paused st = false ->
     _owner st = msg_sender env1 -> _owner st = msg_sender env2 ->
     let st1 := execute env1 CallPause st in
     let st2 := execute env2 CallUnpause st1 in
     _paused st1 = true /\ _paused st2 = false /\ storage_eq st st2 /\
     forall env t ty a h ip,
       (call (logTransaction env t ty a h ip) st2).2 =
         (call (logTransaction env t ty a h ip) st).2 /\
       storage_eq (call (logTransaction env t ty a h ip) st).1
                  (call (logTransaction env t ty a h ip) st2).1).
Proof.
  split; [|split].
  - intros st env t ty a h ip Hreach Hp.
    rewrite logTransaction_run. unfold log_checks, first_failure.
    rewrite Hp, (ok_status _ (reachable_ledger_ok _ Hreach)).
    destruct (mget false (authorizedSMEs st) (msg_sender env)); reflexivity.
  - intros st env st'.
    assert (Hled : same_ledger st st').
    { apply execute_admin_ledger. discriminate. }
    destruct (reads_same_ledger _ _ Hled) as (_ & H1 & H2 & H3 & H4 & _).
    auto.
  - intros st env1 env2 Hp Ho1 Ho2 st1 st2.
    assert (Hst1 : st1 = add_event (Paused (msg_sender env1)) (set_paused true st)).
    { subst st1. cbn [execute]. rewrite pause_run, Hp.
      rewrite bool_decide_eq_true_2 by assumption. reflexivity. }
    assert (Hst2 : st2 = add_event (Unpaused (msg_sender env2))
                           (set_paused false st1)).
    { subst st2. cbn [execute]. rewrite unpause_run, Hst1. cbn.
      rewrite bool_decide_eq_true_2 by assumption. reflexivity. }
    assert (Heq : storage_eq st st2).
    { rewrite Hst2, Hst1. unfold storage_eq, same_ledger. cbn.
      rewrite Hp. repeat split. }
    split; [rewrite Hst1; reflexivity|].
    split; [rewrite Hst2; reflexivity|].
    split; [exact Heq|].
    intros env t ty a h ip. apply logTransaction_storage_eq. exact Heq.
Qed.

(** An authorized caller is rejected with the paused reason while paused. *)
Lemma pause_gating_witness :
  call (logTransaction (mkEnv 5 2000) "T2" "PAYMENT" 1 1 "p") demo_paused =
    (demo_paused, inl (Revert "Pausable: paused")).
Proof.
  apply (proj1 pause_gating demo_paused (mkEnv 5 2000) "T2" "PAYMENT" 1 1 "p"
           demo_paused_reachable).
  reflexivity.
Defined.

(** C7 as stated fails: while paused, the unauthorized caller 9 is not
    rejected with the paused reason. *)
Lemma pause_reason_unauthorized :
  reachable demo_paused /\ _paused demo_paused = true /\
  (call (logTransaction (mkEnv 9 2000) "T2" "PAYMENT" 1 1 "p") demo_paused).2 =
    inl (Revert "AuditTrail: Not authorized SME") /\
  (call (logTransaction (mkEnv 9 2000) "T2" "PAYMENT" 1 1 "p") demo_paused).2 <>
    inl (Revert "Pausable: paused").
Proof.
  split; [exact demo_paused_reachable|].
  split; [reflexivity|]. split; [reflexivity|discriminate].
Qed.

(** ** Batch authorization *)

(** The zero address in second place: the loop has authorized 7 when it
    stops, and the transaction boundary discards that write. *)
Example batch_partial_write_discarded :
  exists st',
    batchAuthorizeSMEs (mkEnv 1 20) [7; 0] [true; false] demo_deployed =
      Failure (Revert "AuditTrail: Invalid SME address") st' /\
    mget false (authorizedSMEs st') 7 = true /\
    call (batchAuthorizeSMEs (mkEnv 1 20) [7; 0] [true; false]) demo_deployed =
      (demo_deployed, inl (Revert "AuditTrail: Invalid SME address")) /\
    mget false (authorizedSMEs demo_deployed) 7 = false.
Proof. eexists. repeat split. Qed.

(** C8, as amended. [batchAuthorizeSMEs] fails, and leaves the state with
    every authorization flag as it was, when the two lists differ in length,
    when either is empty, when a listed principal is the zero address, or
    when the caller is not the owner.  Otherwise, called by the owner, it
    succeeds: it assigns the i-th status to the flag of the i-th principal
    for every index in increasing order (so the write of index [i] is what
    the flag holds after the first [i + 1] iterations, and at the end unless
    the principal is listed again later: a principal listed more than once
    ends with the status of its last occurrence), it emits one
    [SMEAuthorized] event per entry in that order, and it changes nothing
    else. *)
Theorem batch_all_or_nothing env _smes _statuses st :
  (length _smes <> length _statuses \/ _smes = [] \/ _statuses = [] \/ 0 ∈ _smes ->
   exists e, call (batchAuthorizeSMEs env _smes _statuses) st = (st, inl e)) /\
  (_owner st = msg_sender env ->
   length _smes = length _statuses -> _smes <> [] -> 0 ∉ _smes ->
   exists st',
     call (batchAuthorizeSMEs env _smes _statuses) st = (st', inr tt) /\
     authorizedSMEs st' =
       fold_left (fun m e => <[e.1 := e.2]> m) (zip _smes _statuses)
         (authorizedSMEs st) /\
     events st' =
       events st ++ map (fun e => SMEAuthorized e.1 e.2) (zip _smes _statuses) /\
     length (zip _smes _statuses) = length _smes /\
     same_ledger st st' /\
     _owner st' = _owner st /\ _status st' = _status st /\
     _paused st' = _paused st /\
     forall i a s, _smes !! i = Some a -> _statuses !! i = Some s ->
       mget false
         (fold_left (fun m e => <[e.1 := e.2]> m)
            (take (S i) (zip _smes _statuses)) (authorizedSMEs st)) a = s /\
       (a ∉ drop (S i) _smes -> mget false (authorizedSMEs st') a = s)) /\
  (_owner st <> msg_sender env ->
   call (batchAuthorizeSMEs env _smes _statuses) st =
     (st, inl (Revert "Ownable: caller is not the owner"))).
Proof.
  split; [|split];
    [| |intros Hown; rewrite batchAuthorizeSMEs_run;
        rewrite (bool_decide_eq_false_2 _ Hown); reflexivity].
  - intros Hbad. rewrite batchAuthorizeSMEs_run.
    destruct (bool_decide (_owner st = msg_sender env)); [|eexists; reflexivity].
    destruct (bool_decide_reflect (length _smes = length _statuses)) as [Hlen|];
      [|eexists; reflexivity].
    destruct (bool_decide_reflect (0 < length _smes)%nat) as [Hpos|Hpos];
      [|eexists; reflexivity].
    destruct (bool_decide_reflect (0 ∈ _smes)) as [Hz|Hz]; [eexists; reflexivity|].
    exfalso. destruct Hbad as [Hb|[->|[->|Hb]]]; try contradiction.
    + cbn in Hpos. lia.
    + cbn in Hlen. lia.
  - intros Hown Hlen Hne Hnz. rewrite batchAuthorizeSMEs_run.
    assert (0 < length _smes)%nat as Hpos
      by (destruct _smes; [contradiction|cbn; lia]).
    rewrite (bool_decide_eq_true_2 _ Hown), (bool_decide_eq_true_2 _ Hlen),
      (bool_decide_eq_true_2 _ Hpos).
    rewrite bool_decide_eq_false_2 by assumption.
    eexists. split; [reflexivity|].
    split; [apply batch_apply_authorizedSMEs|].
    split; [apply batch_apply_events|].
    split; [rewrite length_zip_with; lia|].
    split; [apply batch_apply_ledger|].
    destruct (batch_apply_fields (zip _smes _statuses) st) as (Ho & Hs & Hp).
    do 3 (split; [assumption|]).
    intros i a s Ha Hs'.
    assert (Hzip : zip _smes _statuses !! i = Some (a, s)).
    { rewrite lookup_zip_with, Ha, Hs'. reflexivity. }
    split.
    + rewrite (take_S_r _ _ _ Hzip), fold_left_app. cbn.
      apply mget_insert_eq.
    + intros Hlater. rewrite batch_apply_authorizedSMEs.
      rewrite <- (take_drop (S i) (zip _smes _statuses)) at 1.
      rewrite fold_left_app, mget_fold_insert_notin.
      * rewrite (take_S_r _ _ _ Hzip), fold_left_app. cbn.
        apply mget_insert_eq.
      * intros Hin. apply Hlater. rewrite zip_with_drop in Hin.
        eapply fst_zip_subset. exact Hin.
Qed.

(** The owner authorizes 7 and deauthorizes 8 in one batch. *)
Lemma batch_all_or_nothing_witness :
  exists st',
    call (batchAuthorizeSMEs (mkEnv 1 20) [7; 8] [true; false]) demo_deployed =
      (st', inr tt) /\
    mget false (authorizedSMEs st') 7 = true /\
    mget false (authorizedSMEs st') 8 = false /\
    events st' = events demo_deployed ++ [SMEAuthorized 7 true; SMEAuthorized 8 false].
Proof.
  destruct (proj1 (proj2 (batch_all_or_nothing (mkEnv 1 20) [7; 8] [true; false]
                            demo_deployed)) eq_refl eq_refl
              ltac:(discriminate)
              ltac:(apply (bool_decide_unpack _); vm_compute; exact I))
    as (st' & Hcall & Hauth & Hev & _).
  exists st'. split; [exact Hcall|].
  rewrite Hauth, Hev. repeat split.
Defined.

(** C8 as stated fails.  Principal 5 is not the owner: its batch, with two
    lists of one entry and no zero address, fails and sets no flag.  And
    the owner's batch that lists principal 7 twice, first with true and
    then with false, succeeds and leaves the flag of 7 false, which is not
    the status of index 0. *)
Lemma batch_sets_each_flag_fails :
  (_owner demo_authorized <> 5 /\
   call (batchAuthorizeSMEs (mkEnv 5 30) [9] [true]) demo_authorized =
     (demo_authorized, inl (Revert "Ownable: caller is not the owner")) /\
   mget false (authorizedSMEs demo_authorized) 9 <> true) /\
  (exists st',
     call (batchAuthorizeSMEs (mkEnv 1 20) [7; 7] [true; false]) demo_deployed =
       (st', inr tt) /\
     [7; 7] !! 0%nat = Some 7 /\ [true; false] !! 0%nat = Some true /\
     mget false (authorizedSMEs st') 7 <> true).
Proof.
  split.
  - split; [discriminate|]. split; [reflexivity|discriminate].
  - eexists. split; [reflexivity|].
    split; [reflexivity|]. split; [reflexivity|discriminate].
Qed.

(** ** The reverse index *)

(** C9, as amended. In every reachable state [tokenExists[t]] is true
    exactly when some principal's trail has a record with tokenId [t], and
    [tokenToSME] of a record's tokenId is the principal of the record and of
    the trail holding it; so [getTransactionByTokenId] returns [(true, r)]
    for the record [r] with that tokenId, [(false, emptyTx)] for a
    well-formed tokenId no record has, and reverts for a tokenId that is
    empty or longer than 64 bytes. *)
Theorem reverse_index_consistent st :
  reachable st ->
  (forall t, mget false (tokenExists st) t = true <->
             exists p i r, record_at st p i r /\ tokenId r = t) /\
  (forall p i r, record_at st p i r ->
     mget 0 (tokenToSME st) (tokenId r) = p /\ smeAddress r = p) /\
  (forall p i r, record_at st p i r ->
     getTransactionByTokenId st (tokenId r) = inr (true, r)) /\
  (forall t, (0 < String.length t <= 64)%nat ->
     (forall p i r, record_at st p i r -> tokenId r <> t) ->
     getTransactionByTokenId st t = inr (false, emptyTx)) /\
  (forall t, String.length t = 0%nat ->
     getTransactionByTokenId st t =
       inl (Revert "AuditTrail: Token ID cannot be empty")) /\
  (forall t, (64 < String.length t)%nat ->
     getTransactionByTokenId st t = inl (Revert "AuditTrail: Token ID too long")).
Proof.
  intros Hreach. pose proof (reachable_ledger_ok _ Hreach) as Hok.
  split; [|split; [|split; [|split; [|split]]]].
  - intros t. split.
    + intros Hex. destruct (ok_exists _ Hok _ Hex) as (i & r & Hr & Ht).
      eauto.
    + intros (p & i & r & Hr & <-). apply (ok_indexed _ Hok _ _ _ Hr).
  - intros p i r Hr. destruct (ok_indexed _ Hok _ _ _ Hr) as (_ & H1 & H2 & _).
    auto.
  - intros p i r Hr.
    destruct (ok_indexed _ Hok _ _ _ Hr) as (Hex & Hto & _ & Hp & Hlen).
    unfold getTransactionByTokenId. rewrite validTokenIdR_ok by assumption.
    cbn [mbind Result_bind]. rewrite Hex, Hto. cbn [negb].
    rewrite verifyToken_ok by assumption. f_equal.
    destruct (verifyToken_scan (mget [] (auditTrails st) p) (tokenId r))
      as [[|] tx] eqn:Hscan.
    + destruct (verifyToken_scan_found _ _ _ Hscan) as (j & Hj & Ht & _).
      assert (j = i) as -> by (eapply (ok_unique _ Hok); eassumption).
      unfold record_at in Hr. congruence.
    + destruct (verifyToken_scan_absent _ _ _ Hscan) as (_ & Hall).
      exfalso. eapply Hall; [exact Hr|reflexivity].
  - intros t Hlen Hnone.
    unfold getTransactionByTokenId. rewrite validTokenIdR_ok by assumption.
    cbn [mbind Result_bind].
    destruct (mget false (tokenExists st) t) eqn:Hex; [|reflexivity].
    exfalso. destruct (ok_exists _ Hok _ Hex) as (i & r & Hr & Ht).
    eapply Hnone; eassumption.
  - intros t Hlen. unfold getTransactionByTokenId.
    rewrite validTokenIdR_empty by assumption. reflexivity.
  - intros t Hlen. unfold getTransactionByTokenId.
    rewrite validTokenIdR_long by assumption. reflexivity.
Qed.

Lemma reverse_index_consistent_witness :
  reachable demo_logged /\
  getTransactionByTokenId demo_logged "T1" = inr (true, demo_T1).
Proof.
  split; [exact demo_logged_reachable|].
  apply (proj1 (proj2 (proj2 (reverse_index_consistent demo_logged
           demo_logged_reachable))) 5 0%nat demo_T1).
  reflexivity.
Defined.

(** C9 as stated fails: no record has the empty tokenId, and
    [getTransactionByTokenId] reverts for it, it does not return
    [(false, emptyTx)]. *)
Lemma lookup_empty_token_reverts :
  reachable demo_logged /\
  (forall p i r, record_at demo_logged p i r -> tokenId r <> "") /\
  getTransactionByTokenId demo_logged "" =
    inl (Revert "AuditTrail: Token ID cannot be empty") /\
  getTransactionByTokenId demo_logged "" <> inr (false, emptyTx).
Proof.
  split; [exact demo_logged_reachable|]. split; [|split].
  - intros p i r Hr Heq.
    destruct (ok_indexed _ (reachable_ledger_ok _ demo_logged_reachable) _ _ _ Hr)
      as (_ & _ & _ & _ & Hlen).
    rewrite Heq in Hlen. cbn in Hlen. lia.
  - reflexivity.
  - discriminate.
Qed.


(** * Further properties of the contract *)

(** ** When an append is accepted *)

(** X1. [logTransaction] succeeds exactly when the caller is authorized, no
    guarded call is running, the contract is not paused, the tokenId has 1
    to 64 bytes and is not used yet, the amount is positive, the data hash
    is non-zero, the type and the IPFS hash are non-empty and neither
    counter is at its maximum; it then returns [true] (never [false]) and
    the state is the one with the new record filed, indexed, counted and
    announced. *)
Theorem logTransaction_accepted_iff env t ty a h ip st :
  (log_accepts env t ty a h ip st <->
   call (logTransaction env t ty a h ip) st = (logged env t ty a h ip st, inr true)) /\
  (forall b, (call (logTransaction env t ty a h ip) st).2 = inr b ->
     b = true /\ log_accepts env t ty a h ip st) /\
  (forall e, (call (logTransaction env t ty a h ip) st).2 = inl e ->
     ~ log_accepts env t ty a h ip st).
Proof.
  rewrite logTransaction_run.
  destruct (first_failure (log_checks env t ty a h ip st)) as [e|] eqn:Hff.
  - assert (Hno : ~ log_accepts env t ty a h ip st).
    { intros Hacc. apply first_failure_none_accepts in Hacc. congruence. }
    split; [split; [contradiction|discriminate]|].
    split; [discriminate|]. intros _ _. exact Hno.
  - apply first_failure_none_accepts in Hff.
    split; [split; [reflexivity|intros _; exact Hff]|].
    split; [intros b [= <-]; auto|discriminate].
Qed.

Lemma logTransaction_accepted_iff_witness :
  (call (logTransaction (mkEnv 5 1000) "T1" "PAYMENT" 100 77 "ptr1")
     demo_authorized).2 = inr true /\
  log_accepts (mkEnv 5 1000) "T1" "PAYMENT" 100 77 "ptr1" demo_authorized.
Proof.
  split; [reflexivity|].
  apply (proj1 (proj2 (logTransaction_accepted_iff (mkEnv 5 1000) "T1" "PAYMENT"
           100 77 "ptr1" demo_authorized)) true).
  reflexivity.
Defined.

(** ** Records that are stored *)

Lemma record_ok_newTx env t ty a h ip st :
  ledger_ok st -> log_accepts env t ty a h ip st ->
  record_ok (msg_sender env) (newTx env t ty a h ip).
Proof.
  intros Hok []. constructor; cbn; try assumption; try reflexivity.
  - intros Hz. rewrite Hz, (ok_zero _ Hok) in acc_authorized0. discriminate.
  - lia.
Qed.

Lemma records_ok_execute env c st :
  ledger_ok st ->
  (forall p i r, record_at st p i r -> record_ok p r) ->
  forall p i r, record_at (execute env c st) p i r -> record_ok p r.
Proof.
  intros Hok Hall p i r.
  destruct (execute_cases env c st) as
    [((Ha & _) & _)|(t & ty & a & h & ip & _ & Hff & ->)].
  - unfold record_at. rewrite Ha. apply Hall.
  - intros Hr. apply logged_record_at in Hr as [Hr|(-> & _ & ->)].
    + eapply Hall. exact Hr.
    + apply (record_ok_newTx env t ty a h ip st); [assumption|].
      apply first_failure_none_accepts. assumption.
Qed.

Lemma reachable_records_ok st :
  reachable st -> forall p i r, record_at st p i r -> record_ok p r.
Proof.
  induction 1 as [d Hd|st env c Hreach IH].
  - intros p i r. unfold record_at. cbn. rewrite mget_empty. intros Hr. inversion Hr.
  - apply records_ok_execute; [apply reachable_ledger_ok|]; assumption.
Qed.

(** X3. Every record stored in a reachable state is complete: it is marked
    verified, its principal is the non-zero address whose trail holds it,
    its tokenId has 1 to 64 bytes, its amount is positive, its data hash is
    non-zero and its type and IPFS hash are non-empty; nothing is filed in
    the trail of the zero address. *)
Theorem stored_records_well_formed st :
  reachable st ->
  (forall p i r, record_at st p i r ->
     isVerified r = true /\ smeAddress r = p /\ p <> 0 /\
     (0 < String.length (tokenId r) <= 64)%nat /\ 0 < amount r /\
     dataHash r <> 0 /\ (0 < String.length (transactionType r))%nat /\
     (0 < String.length (ipfsHash r))%nat) /\
  mget [] (auditTrails st) 0 = [].
Proof.
  intros Hreach. split.
  - intros p i r Hr. destruct (reachable_records_ok _ Hreach _ _ _ Hr).
    repeat split; assumption || lia.
  - destruct (mget [] (auditTrails st) 0) as [|r l] eqn:Hl; [reflexivity|].
    exfalso.
    assert (Hr : record_at st 0 0%nat r) by (unfold record_at; rewrite Hl; reflexivity).
    destruct (reachable_records_ok _ Hreach _ _ _ Hr). congruence.
Qed.

Lemma stored_records_well_formed_witness :
  isVerified demo_T1 = true /\ 0 < amount demo_T1.
Proof.
  destruct (proj1 (stored_records_well_formed demo_logged demo_logged_reachable)
              5 0%nat demo_T1 eq_refl) as (Hv & _ & _ & _ & Ha & _).
  split; assumption.
Defined.

(** ** Finding a record again *)

Lemma verifyToken_found st p i r :
  ledger_ok st -> record_at st p i r ->
  verifyToken st (tokenId r) p = inr (true, r).
Proof.
  intros Hok Hr.
  destruct (ok_indexed _ Hok _ _ _ Hr) as (_ & _ & _ & Hp & Hlen).
  rewrite verifyToken_ok by assumption. f_equal.
  destruct (verifyToken_scan (mget [] (auditTrails st) p) (tokenId r))
    as [[|] tx] eqn:Hscan.
  - destruct (verifyToken_scan_found _ _ _ Hscan) as (j & Hj & Ht & _).
    assert (j = i) as -> by (eapply (ok_unique _ Hok); eassumption).
    unfold record_at in Hr. congruence.
  - destruct (verifyToken_scan_absent _ _ _ Hscan) as (_ & Hall).
    exfalso. eapply Hall; [exact Hr|reflexivity].
Qed.

Lemma getTransactionByTokenId_found st p i r :
  ledger_ok st -> record_at st p i r ->
  getTransactionByTokenId st (tokenId r) = inr (true, r).
Proof.
  intros Hok Hr.
  destruct (ok_indexed _ Hok _ _ _ Hr) as (Hex & Hto & _ & _ & Hlen).
  unfold getTransactionByTokenId. rewrite validTokenIdR_ok by assumption.
  cbn [mbind Result_bind]. rewrite Hex, Hto. cbn [negb].
  eapply verifyToken_found; eassumption.
Qed.

Lemma verifyDataIntegrity_found st p i r h :
  ledger_ok st -> record_at st p i r -> h <> 0 ->
  verifyDataIntegrity st (tokenId r) p h = inr (bool_decide (dataHash r = h)).
Proof.
  intros Hok Hr Hh.
  destruct (ok_indexed _ Hok _ _ _ Hr) as (_ & _ & _ & Hp & Hlen).
  pose proof (verifyToken_found _ _ _ _ Hok Hr) as Hv.
  rewrite verifyToken_ok in Hv by assumption. injection Hv as Hv.
  rewrite verifyDataIntegrity_ok, Hv by assumption. reflexivity.
Qed.

(** X2. Round trip of an append.  After [logTransaction] is accepted in a
    reachable state, the sender's trail is the old trail followed by the new
    record, [verifyToken] and [getTransactionByTokenId] return that record,
    [verifyDataIntegrity] answers true for the hash that was logged and
    false for any other non-zero hash, and the same tokenId sent again is
    rejected whoever sends it and whatever the other arguments, with the
    state unchanged: for an authorized caller the reason is the duplicate
    when the amount is positive and the amount when it is not, since the
    amount is checked before the duplicate. *)
Theorem append_round_trip env t ty a h ip st :
  reachable st -> log_accepts env t ty a h ip st ->
  let st' := (call (logTransaction env t ty a h ip) st).1 in
  let r := newTx env t ty a h ip in
  getAuditTrail st' (msg_sender env) =
    inr (mget [] (auditTrails st) (msg_sender env) ++ [r]) /\
  verifyToken st' t (msg_sender env) = inr (true, r) /\
  getTransactionByTokenId st' t = inr (true, r) /\
  verifyDataIntegrity st' t (msg_sender env) h = inr true /\
  (forall h', h' <> 0 -> h' <> h ->
     verifyDataIntegrity st' t (msg_sender env) h' = inr false) /\
  (forall env' ty' a' h' ip',
     exists e, call (logTransaction env' t ty' a' h' ip') st' = (st', inl e)) /\
  (forall env' ty' a' h' ip',
     mget false (authorizedSMEs st') (msg_sender env') = true ->
     call (logTransaction env' t ty' a' h' ip') st' =
       (st', inl (Revert (if 0 <? a' then "AuditTrail: Token already exists"
                          else "AuditTrail: Amount must be greater than zero")))).
Proof.
  intros Hreach Hacc st' r.
  assert (Hst' : st' = logged env t ty a h ip st).
  { subst st'. rewrite logTransaction_run.
    apply first_failure_none_accepts in Hacc. rewrite Hacc. reflexivity. }
  pose proof (reachable_ledger_ok _ Hreach) as Hok.
  assert (Hok' : ledger_ok st').
  { rewrite Hst'. apply ledger_ok_logged; assumption. }
  assert (Hr : record_at st' (msg_sender env)
                 (length (mget [] (auditTrails st) (msg_sender env))) r).
  { rewrite Hst'. apply logged_record_at. right. repeat split. }
  assert (Hsender : msg_sender env <> 0).
  { apply (ok_indexed _ Hok' _ _ _ Hr). }
  split.
  { unfold getAuditTrail, requireR. rewrite bool_decide_eq_false_2 by assumption.
    cbn [negb mbind Result_bind mret Result_ret]. rewrite Hst', logged_trail.
    rewrite bool_decide_eq_true_2 by reflexivity. reflexivity. }
  split; [apply (verifyToken_found _ _ _ _ Hok' Hr)|].
  split; [apply (getTransactionByTokenId_found _ _ _ _ Hok' Hr)|].
  split.
  { pose proof (verifyDataIntegrity_found _ _ _ r h Hok' Hr
                  (acc_hash _ _ _ _ _ _ _ Hacc)) as Hvi.
    cbn [r newTx tokenId dataHash] in Hvi. rewrite Hvi.
    rewrite bool_decide_eq_true_2 by reflexivity. reflexivity. }
  split.
  { intros h' Hh' Hne.
    pose proof (verifyDataIntegrity_found _ _ _ r h' Hok' Hr Hh') as Hvi.
    cbn [r newTx tokenId dataHash] in Hvi. rewrite Hvi.
    rewrite bool_decide_eq_false_2 by congruence. reflexivity. }
  assert (Hp : _paused st' = false).
  { rewrite Hst'. cbn. apply (acc_not_paused _ _ _ _ _ _ _ Hacc). }
  assert (Hex : mget false (tokenExists st') t = true).
  { rewrite Hst'. cbn. apply mget_insert_eq. }
  split.
  { intros env' ty' a' h' ip'. rewrite logTransaction_run.
    destruct (first_failure _) eqn:Hff; [eexists; reflexivity|].
    apply first_failure_none_accepts in Hff.
    rewrite (acc_fresh _ _ _ _ _ _ _ Hff) in Hex. discriminate. }
  intros env' ty' a' h' ip' Hau. rewrite logTransaction_run.
  unfold log_checks, first_failure.
  rewrite Hau, (ok_status _ Hok').
  rewrite bool_decide_eq_false_2 by discriminate. cbn [negb].
  rewrite Hp, Hex. cbn [negb].
  pose proof (acc_token_nonempty _ _ _ _ _ _ _ Hacc).
  pose proof (acc_token_short _ _ _ _ _ _ _ Hacc).
  replace (0 <? Z.of_nat (String.length t)) with true
    by (symmetry; apply Z.ltb_lt; lia).
  replace (Z.of_nat (String.length t) <=? 64) with true
    by (symmetry; apply Z.leb_le; lia).
  destruct (0 <? a'); reflexivity.
Qed.

Lemma demo_authorized_reachable : reachable demo_authorized.
Proof. apply reachable_step. exact demo_deployed_reachable. Defined.

Lemma demo_authorized_accepts :
  log_accepts (mkEnv 5 1000) "T1" "PAYMENT" 100 77 "ptr1" demo_authorized.
Proof.
  apply first_failure_none_accepts. reflexivity.
Defined.

Lemma append_round_trip_witness :
  verifyDataIntegrity demo_logged "T1" 5 77 = inr true /\
  verifyDataIntegrity demo_logged "T1" 5 78 = inr false.
Proof.
  pose proof (append_round_trip (mkEnv 5 1000) "T1" "PAYMENT" 100 77 "ptr1"
                demo_authorized demo_authorized_reachable
                demo_authorized_accepts) as H.
  cbv zeta in H. destruct H as (_ & _ & _ & Htrue & Hfalse & _).
  split; [exact Htrue|]. apply Hfalse; discriminate.
Defined.

(** ** Counters and trail lengths *)

Lemma reachable_counters_ok st : reachable st -> counters_ok st.
Proof.
  induction 1 as [d Hd|st env c _ IH].
  - apply counters_ok_constructor.
  - apply counters_ok_execute. exact IH.
Qed.

Lemma count_principal_all p l :
  (forall r, r ∈ l -> smeAddress r = p) ->
  count_principal p l = Z.of_nat (length l).
Proof.
  unfold count_principal. induction l as [|x l IH]; intros Hall; [reflexivity|].
  rewrite filter_cons_True by (apply Hall; left). cbn [length].
  rewrite !Nat2Z.inj_succ, IH; [reflexivity|].
  intros r Hr. apply Hall. right. exact Hr.
Qed.

Lemma count_principal_none p l :
  (forall r, r ∈ l -> smeAddress r <> p) -> count_principal p l = 0.
Proof.
  unfold count_principal. induction l as [|x l IH]; intros Hall; [reflexivity|].
  rewrite filter_cons_False by (apply Hall; left).
  apply IH. intros r Hr. apply Hall. right. exact Hr.
Qed.

(** When every record is filed under its own principal, the records of [p]
    over all trails are the records of the trail of [p]. *)
Lemma map_sum_count_principal p (m : gmap Z (list Transaction)) :
  (forall q l r, m !! q = Some l -> r ∈ l -> smeAddress r = q) ->
  map_sum (count_principal p) m = Z.of_nat (length (mget [] m p)).
Proof.
  induction m as [|k l m Hk IH] using map_ind; intros Hall.
  - rewrite map_sum_empty, mget_empty. reflexivity.
  - rewrite map_sum_insert_None by assumption.
    rewrite IH.
    + destruct (decide (k = p)) as [->|Hne].
      * rewrite mget_insert_eq. unfold mget at 1. rewrite Hk. cbn.
        rewrite count_principal_all; [lia|].
        intros r Hr. eapply Hall; [apply lookup_insert_eq|exact Hr].
      * rewrite mget_insert_ne by assumption.
        rewrite count_principal_none; [lia|].
        intros r Hr Heq. apply Hne. rewrite <- Heq. symmetry.
        eapply Hall; [apply lookup_insert_eq|exact Hr].
    + intros q l' r Hq Hr. eapply Hall; [|exact Hr].
      rewrite lookup_insert_ne; [exact Hq|]. congruence.
Qed.

Lemma total_records_execute env c st :
  totalTransactions st = total_records st ->
  totalTransactions (execute env c st) = total_records (execute env c st).
Proof.
  intros Htot. destruct (execute_cases env c st) as
    [((Ha & _ & _ & _ & Ht) & _)|(t & ty & a & h & ip & _ & _ & ->)].
  - unfold total_records. rewrite Ha, Ht. exact Htot.
  - unfold total_records. cbn [logged auditTrails totalTransactions].
    rewrite (map_sum_insert _ []) by reflexivity.
    fold (total_records st). rewrite length_app. cbn [length]. lia.
Qed.

(** X4. In every reachable state [getTransactionCount(p)] is the length of
    the trail [getAuditTrail(p)] returns, for every non-zero [p]; both
    revert for the zero address; and [getTotalTransactions] is the number
    of records over all trails. *)
Theorem counts_are_trail_lengths st :
  reachable st ->
  (forall p, p <> 0 ->
     getAuditTrail st p = inr (mget [] (auditTrails st) p) /\
     getTransactionCount st p =
       inr (Z.of_nat (length (mget [] (auditTrails st) p)))) /\
  getAuditTrail st 0 = inl (Revert "AuditTrail: Invalid SME address") /\
  getTransactionCount st 0 = inl (Revert "AuditTrail: Invalid SME address") /\
  getTotalTransactions st = inr (total_records st).
Proof.
  intros Hreach. split; [|split; [reflexivity|split; [reflexivity|]]].
  - intros p Hp. unfold getAuditTrail, getTransactionCount, requireR.
    rewrite bool_decide_eq_false_2 by assumption.
    cbn [negb mbind Result_bind mret Result_ret]. split; [reflexivity|].
    f_equal. destruct (reachable_counters_ok _ Hreach) as [Hcount _].
    rewrite Hcount. unfold records_of. apply map_sum_count_principal.
    intros q l r Hq Hr. apply list_elem_of_lookup in Hr as [i Hi].
    assert (Hrec : record_at st q i r).
    { unfold record_at, mget. rewrite Hq. exact Hi. }
    apply (ok_indexed _ (reachable_ledger_ok _ Hreach) _ _ _ Hrec).
  - unfold getTotalTransactions, mret, Result_ret. f_equal.
    induction Hreach as [d Hd|st env c _ IH].
    + unfold total_records. cbn. rewrite map_sum_empty. reflexivity.
    + apply total_records_execute. exact IH.
Qed.

Lemma counts_are_trail_lengths_witness :
  getTransactionCount demo_logged 5 = inr 1.
Proof.
  apply (proj2 (proj1 (counts_are_trail_lengths demo_logged demo_logged_reachable)
                  5 ltac:(discriminate))).
Defined.

(** ** One token, one principal *)

(** X5. In a reachable state a tokenId is found under one principal only:
    when [verifyToken(t, p)] finds a record, [getTransactionByTokenId(t)]
    returns the same record, its principal field is [p], and
    [verifyToken(t, q)] reports it absent for every other non-zero [q]. *)
Theorem token_found_under_one_principal st t p r :
  reachable st ->
  verifyToken st t p = inr (true, r) ->
  tokenId r = t /\ smeAddress r = p /\
  getTransactionByTokenId st t = inr (true, r) /\
  (forall q, q <> 0 -> q <> p -> verifyToken st t q = inr (false, emptyTx)).
Proof.
  intros Hreach Hv. pose proof (reachable_ledger_ok _ Hreach) as Hok.
  destruct (verifyToken_inv _ _ _ _ Hv) as (Hlen & Hp & Hscan).
  symmetry in Hscan.
  destruct (verifyToken_scan_found _ _ _ Hscan) as (i & Hi & Ht & _).
  assert (Hr : record_at st p i r) by exact Hi.
  destruct (ok_indexed _ Hok _ _ _ Hr) as (_ & Hto & Hsme & _).
  split; [exact Ht|]. split; [exact Hsme|].
  split; [rewrite <- Ht; eapply getTransactionByTokenId_found; eassumption|].
  intros q Hq Hne. rewrite verifyToken_ok by assumption. f_equal.
  destruct (verifyToken_scan (mget [] (auditTrails st) q) t) as [[|] tx] eqn:Hsq.
  - exfalso. destruct (verifyToken_scan_found _ _ _ Hsq) as (j & Hj & Ht' & _).
    assert (Hr' : record_at st q j tx) by exact Hj.
    destruct (ok_indexed _ Hok _ _ _ Hr') as (_ & Hto' & _).
    apply Hne. rewrite <- Hto', Ht', <- Ht. exact Hto.
  - destruct (verifyToken_scan_absent _ _ _ Hsq) as (-> & _). reflexivity.
Qed.

Lemma token_found_under_one_principal_witness :
  verifyToken demo_logged "T1" 1 = inr (false, emptyTx).
Proof.
  apply (proj2 (proj2 (proj2 (token_found_under_one_principal demo_logged "T1" 5
           demo_T1 demo_logged_reachable eq_refl))) 1); discriminate.
Defined.

(** X6. In a reachable state, for a well-formed tokenId, a non-zero
    principal and a non-zero hash, [verifyDataIntegrity] returns true
    exactly when the principal's trail holds a record with that tokenId and
    that data hash, and false otherwise. *)
Theorem verifyDataIntegrity_iff st t p h :
  reachable st ->
  (0 < String.length t <= 64)%nat -> p <> 0 -> h <> 0 ->
  (verifyDataIntegrity st t p h = inr true <->
   exists i r, record_at st p i r /\ tokenId r = t /\ dataHash r = h) /\
  (verifyDataIntegrity st t p h = inr false <->
   ~ exists i r, record_at st p i r /\ tokenId r = t /\ dataHash r = h).
Proof.
  intros Hreach Hlen Hp Hh. pose proof (reachable_ledger_ok _ Hreach) as Hok.
  assert (Hdec : (exists i r, record_at st p i r /\ tokenId r = t /\ dataHash r = h)
                 -> verifyDataIntegrity st t p h = inr true).
  { intros (i & r & Hr & <- & Hd).
    rewrite (verifyDataIntegrity_found _ _ _ _ _ Hok Hr Hh).
    rewrite bool_decide_eq_true_2 by assumption. reflexivity. }
  assert (Honly : verifyDataIntegrity st t p h = inr true ->
                  exists i r, record_at st p i r /\ tokenId r = t /\ dataHash r = h).
  { rewrite verifyDataIntegrity_ok by assumption.
    destruct (verifyToken_scan (mget [] (auditTrails st) p) t) as [b tx] eqn:Hscan.
    cbn. intros [= Htrue]. apply andb_true_iff in Htrue as [-> Hd].
    apply bool_decide_eq_true in Hd.
    destruct (verifyToken_scan_found _ _ _ Hscan) as (i & Hi & Ht & _).
    exists i, tx. auto. }
  split; [split; assumption|].
  assert (Hbool : exists b, verifyDataIntegrity st t p h = inr b).
  { rewrite verifyDataIntegrity_ok by assumption. eexists. reflexivity. }
  destruct Hbool as [[|] Hb].
  - split; [rewrite Hb; discriminate|]. intros Hno. exfalso. apply Hno, Honly, Hb.
  - split; [|intros _; exact Hb].
    intros _ Hex. apply Hdec in Hex. rewrite Hb in Hex. discriminate.
Qed.

Lemma verifyDataIntegrity_iff_witness :
  verifyDataIntegrity demo_logged "T1" 5 77 = inr true.
Proof.
  apply (proj1 (verifyDataIntegrity_iff demo_logged "T1" 5 77
           demo_logged_reachable ltac:(cbn; lia) ltac:(discriminate)
           ltac:(discriminate))).
  exists 0%nat, demo_T1. repeat split.
Defined.

(** ** The event log and the records *)

Lemma filter_not_logged evs :
  Forall (fun e => is_logged_event e = false) evs ->
  List.filter is_logged_event evs = [].
Proof.
  induction 1 as [|e evs He _ IH]; [reflexivity|].
  cbn. rewrite He. exact IH.
Qed.

Lemma batch_events_not_logged (entries : list (Z * bool)) :
  Forall (fun e => is_logged_event e = false)
    (map (fun e => SMEAuthorized e.1 e.2) entries).
Proof. induction entries; constructor; [reflexivity|assumption]. Qed.

(** The events a transaction appends: administrative events and an unchanged
    ledger, or the single [TransactionLogged] of an accepted append. *)
Lemma execute_events env c st :
  (same_ledger st (execute env c st) /\
   exists evs, events (execute env c st) = events st ++ evs /\
     Forall (fun e => is_logged_event e = false) evs) \/
  exists t ty a h ip,
    log_accepts env t ty a h ip st /\
    execute env c st = logged env t ty a h ip st.
Proof.
  destruct c; cbn [execute].
  - left. rewrite authorizeSME_run.
    repeat case_match; cbn [fst]; split;
      try apply same_ledger_refl; try apply authorized_ledger.
    + exists []. rewrite app_nil_r. split; [reflexivity|constructor].
    + eexists. split; [reflexivity|]. repeat constructor.
    + exists []. rewrite app_nil_r. split; [reflexivity|constructor].
  - rewrite logTransaction_run.
    destruct (first_failure _) eqn:Hff; cbn [fst].
    + left. split; [apply same_ledger_refl|].
      exists []. rewrite app_nil_r. split; [reflexivity|constructor].
    + right. do 5 eexists. split; [|reflexivity].
      apply first_failure_none_accepts. exact Hff.
  - left. rewrite pause_run.
    repeat case_match; cbn [fst]; (split; [repeat split|]).
    + exists []. rewrite app_nil_r. split; [reflexivity|constructor].
    + eexists. split; [reflexivity|]. repeat constructor.
    + exists []. rewrite app_nil_r. split; [reflexivity|constructor].
  - left. rewrite unpause_run.
    repeat case_match; cbn [fst]; (split; [repeat split|]).
    + eexists. split; [reflexivity|]. repeat constructor.
    + exists []. rewrite app_nil_r. split; [reflexivity|constructor].
    + exists []. rewrite app_nil_r. split; [reflexivity|constructor].
  - left. rewrite batchAuthorizeSMEs_run.
    repeat case_match; cbn [fst]; split;
      try apply same_ledger_refl; try apply batch_apply_ledger;
      try (exists []; rewrite app_nil_r; split; [reflexivity|constructor]).
    eexists. split; [apply batch_apply_events|apply batch_events_not_logged].
  - left. rewrite transferOwnership_run.
    repeat case_match; cbn [fst]; (split; [repeat split|]).
    + exists []. rewrite app_nil_r. split; [reflexivity|constructor].
    + eexists. split; [reflexivity|]. repeat constructor.
    + exists []. rewrite app_nil_r. split; [reflexivity|constructor].
  - left. rewrite renounceOwnership_run.
    repeat case_match; cbn [fst]; (split; [repeat split|]).
    + eexists. split; [reflexivity|]. repeat constructor.
    + exists []. rewrite app_nil_r. split; [reflexivity|constructor].
Qed.

(** X7. The event log tells the ledger: in every reachable state each record
    has its [TransactionLogged] event (same tokenId, principal, timestamp,
    data hash, type and amount) in the log, each [TransactionLogged] event
    in the log has its record, and the number of such events is
    [totalTransactions]. *)
Theorem events_match_records st :
  reachable st ->
  (forall p i r, record_at st p i r -> logged_event_of r ∈ events st) /\
  (forall e, e ∈ events st -> is_logged_event e = true ->
     exists p i r, record_at st p i r /\ e = logged_event_of r) /\
  logged_events st = totalTransactions st.
Proof.
  induction 1 as [d Hd|st env c Hreach (IH1 & IH2 & IH3)].
  - split; [|split; [|reflexivity]].
    + intros p i r. unfold record_at. cbn. rewrite mget_empty.
      intros Hr. inversion Hr.
    + intros e He Hl. cbn in He.
      apply elem_of_cons in He as [->|He]; [discriminate|].
      apply elem_of_cons in He as [->|He]; [discriminate|]. inversion He.
  - destruct (execute_events env c st) as
      [((Ha & He & Ht & Hc & Htot) & evs & Hev & Hnot)
      |(t & ty & a & h & ip & Hacc & ->)].
    + split; [|split].
      * intros p i r. unfold record_at. rewrite Ha, Hev. intros Hr.
        apply elem_of_app. left. apply (IH1 p i r Hr).
      * intros e Hin Hl. rewrite Hev in Hin.
        apply elem_of_app in Hin as [Hin|Hin].
        -- destruct (IH2 e Hin Hl) as (p & i & r & Hr & ->).
           exists p, i, r. split; [|reflexivity]. unfold record_at. rewrite Ha.
           exact Hr.
        -- rewrite Forall_forall in Hnot. apply Hnot in Hin. congruence.
      * unfold logged_events. rewrite Hev, List.filter_app.
        rewrite (filter_not_logged _ Hnot), app_nil_r, Htot. exact IH3.
    + split; [|split].
      * intros p i r Hr. cbn [logged events]. apply elem_of_app.
        apply logged_record_at in Hr as [Hr|(-> & _ & ->)].
        -- left. apply (IH1 p i r Hr).
        -- right. left.
      * intros e Hin Hl. cbn [logged events] in Hin.
        apply elem_of_app in Hin as [Hin|Hin].
        -- destruct (IH2 e Hin Hl) as (p & i & r & Hr & ->).
           exists p, i, r. split; [|reflexivity].
           apply logged_record_at. left. exact Hr.
        -- apply list_elem_of_singleton in Hin as ->.
           exists (msg_sender env),
             (length (mget [] (auditTrails st) (msg_sender env))),
             (newTx env t ty a h ip).
           split; [|reflexivity]. apply logged_record_at. right. repeat split.
      * unfold logged_events. cbn [logged events totalTransactions].
        rewrite List.filter_app, length_app. cbn.
        unfold logged_events in IH3. lia.
Qed.

Lemma events_match_records_witness :
  TransactionLogged "T1" 5 1000 77 "PAYMENT" 100 ∈ events demo_logged.
Proof.
  apply (proj1 (events_match_records demo_logged demo_logged_reachable)
           5 0%nat demo_T1).
  reflexivity.
Defined.

(** ** Authorization *)

(** X8. [authorizeSME] called by the owner for a non-zero address succeeds:
    afterwards [isAuthorizedSME] of that address is the status given, every
    other flag is as before, and one [SMEAuthorized] event was appended.  A
    caller who is not the owner is refused first, then the zero address;
    either way nothing changes. *)
Theorem authorizeSME_round_trip env _sme s st :
  (_owner st = msg_sender env -> _sme <> 0 ->
   (call (authorizeSME env _sme s) st).2 = inr tt /\
   let st' := (call (authorizeSME env _sme s) st).1 in
   isAuthorizedSME st' _sme = inr s /\
   (forall q, q <> _sme -> isAuthorizedSME st' q = isAuthorizedSME st q) /\
   events st' = events st ++ [SMEAuthorized _sme s]) /\
  (_owner st <> msg_sender env ->
   call (authorizeSME env _sme s) st =
     (st, inl (Revert "Ownable: caller is not the owner"))) /\
  (_owner st = msg_sender env -> _sme = 0 ->
   call (authorizeSME env _sme s) st =
     (st, inl (Revert "AuditTrail: Invalid SME address"))).
Proof.
  rewrite authorizeSME_run. split; [|split].
  - intros Hown Hne.
    rewrite (bool_decide_eq_true_2 _ Hown), (bool_decide_eq_false_2 _ Hne).
    cbn [fst snd]. split; [reflexivity|].
    unfold isAuthorizedSME, mret, Result_ret. cbn.
    split; [rewrite mget_insert_eq; reflexivity|].
    split; [|reflexivity].
    intros q Hq. rewrite mget_insert_ne by congruence. reflexivity.
  - intros Hown. rewrite (bool_decide_eq_false_2 _ Hown). reflexivity.
  - intros Hown Hz.
    rewrite (bool_decide_eq_true_2 _ Hown), (bool_decide_eq_true_2 _ Hz).
    reflexivity.
Qed.

Lemma authorizeSME_round_trip_witness :
  isAuthorizedSME demo_authorized 5 = inr true.
Proof.
  apply (proj2 (proj1 (authorizeSME_round_trip (mkEnv 1 10) 5 true demo_deployed)
                  eq_refl ltac:(discriminate))).
Defined.

(** X9. Only the owner administers: a transaction sent by anyone else,
    whatever the function and the arguments, leaves every authorization
    flag, the owner and the pause flag as they were; and [logTransaction]
    leaves them as they were whoever sends it. *)
Theorem only_owner_administers env c st :
  (msg_sender env <> _owner st ->
   authorizedSMEs (execute env c st) = authorizedSMEs st /\
   _owner (execute env c st) = _owner st /\
   _paused (execute env c st) = _paused st) /\
  (forall t ty a h ip,
     c = CallLogTransaction t ty a h ip ->
     authorizedSMEs (execute env c st) = authorizedSMEs st /\
     _owner (execute env c st) = _owner st /\
     _paused (execute env c st) = _paused st).
Proof.
  assert (Hlog : forall t ty a h ip,
    authorizedSMEs (execute env (CallLogTransaction t ty a h ip) st) =
      authorizedSMEs st /\
    _owner (execute env (CallLogTransaction t ty a h ip) st) = _owner st /\
    _paused (execute env (CallLogTransaction t ty a h ip) st) = _paused st).
  { intros t ty a h ip. cbn [execute]. rewrite logTransaction_run.
    destruct (first_failure _); repeat split. }
  split; [|intros t ty a h ip ->; apply Hlog].
  intros Hown.
  assert (Hb : bool_decide (_owner st = msg_sender env) = false)
    by (apply bool_decide_eq_false_2; congruence).
  destruct c; cbn [execute]; [| apply Hlog | | | | |].
  - rewrite authorizeSME_run, Hb. repeat split.
  - rewrite pause_run, Hb. repeat split.
  - rewrite unpause_run, Hb. repeat split.
  - rewrite batchAuthorizeSMEs_run, Hb. repeat split.
  - rewrite transferOwnership_run, Hb. repeat split.
  - rewrite renounceOwnership_run, Hb. repeat split.
Qed.

(** Principal 5 is authorized but is not the owner: its batch changes no
    flag. *)
Lemma only_owner_administers_witness :
  authorizedSMEs (execute (mkEnv 5 30) (CallBatchAuthorizeSMEs [9] [true])
                    demo_authorized) = authorizedSMEs demo_authorized.
Proof.
  apply (proj1 (only_owner_administers (mkEnv 5 30)
                  (CallBatchAuthorizeSMEs [9] [true]) demo_authorized)).
  discriminate.
Defined.

(** ** A batch and the single calls *)







(** X11. The reason a batch is refused with: a caller who is not the owner
    comes first; then lists of different lengths, also when one of them is
    empty; then two empty lists; then a zero address, wherever it stands in
    the list. *)
Theorem batch_refusal_reasons env _smes _statuses st :
  (_owner st <> msg_sender env ->
   call (batchAuthorizeSMEs env _smes _statuses) st =
     (st, inl (Revert "Ownable: caller is not the owner"))) /\
  (_owner st = msg_sender env -> length _smes <> length _statuses ->
   call (batchAuthorizeSMEs env _smes _statuses) st =
     (st, inl (Revert "AuditTrail: Arrays length mismatch"))) /\
  (_owner st = msg_sender env -> _smes = [] -> _statuses = [] ->
   call (batchAuthorizeSMEs env _smes _statuses) st =
     (st, inl (Revert "AuditTrail: Empty arrays"))) /\
  (_owner st = msg_sender env -> length _smes = length _statuses ->
   0 ∈ _smes ->
   call (batchAuthorizeSMEs env _smes _statuses) st =
     (st, inl (Revert "AuditTrail: Invalid SME address"))).
Proof.
  rewrite batchAuthorizeSMEs_run. split; [|split; [|split]].
  - intros Hown. rewrite (bool_decide_eq_false_2 _ Hown). reflexivity.
  - intros Hown Hlen.
    rewrite (bool_decide_eq_true_2 _ Hown), (bool_decide_eq_false_2 _ Hlen).
    reflexivity.
  - intros Hown -> ->. rewrite (bool_decide_eq_true_2 _ Hown). reflexivity.
  - intros Hown Hlen Hz.
    assert (0 < length _smes)%nat as Hpos.
    { destruct _smes; [inversion Hz|cbn; lia]. }
    rewrite (bool_decide_eq_true_2 _ Hown), (bool_decide_eq_true_2 _ Hlen),
      (bool_decide_eq_true_2 _ Hpos), (bool_decide_eq_true_2 _ Hz).
    reflexivity.
Qed.

(** An empty list of principals against one status is a length mismatch. *)
Lemma batch_refusal_reasons_witness :
  call (batchAuthorizeSMEs (mkEnv 1 20) [] [true]) demo_deployed =
    (demo_deployed, inl (Revert "AuditTrail: Arrays length mismatch")).
Proof.
  apply (proj1 (proj2 (batch_refusal_reasons (mkEnv 1 20) [] [true]
                         demo_deployed)) eq_refl).
  discriminate.
Defined.

(** ** Histories *)

Lemma execute_append_only env c st :
  (forall p, mget [] (auditTrails st) p `prefix_of`
             mget [] (auditTrails (execute env c st)) p) /\
  (forall p, mget 0 (transactionCounts st) p <=
             mget 0 (transactionCounts (execute env c st)) p) /\
  totalTransactions st <= totalTransactions (execute env c st) /\
  (forall t, mget false (tokenExists st) t = true ->
     mget false (tokenExists (execute env c st)) t = true /\
     mget 0 (tokenToSME (execute env c st)) t = mget 0 (tokenToSME st) t).
Proof.
  destruct (execute_cases env c st) as
    [((Ha & He & Ht & Hc & Htot) & _)|(t & ty & a & h & ip & _ & Hff & ->)].
  - rewrite Ha, He, Ht, Hc, Htot. repeat split; try reflexivity; try lia.
    assumption.
  - apply first_failure_none_accepts in Hff.
    split; [|split; [|split]].
    + intros p. rewrite logged_trail. case_bool_decide; [|reflexivity].
      eexists. reflexivity.
    + intros p. cbn [logged transactionCounts].
      destruct (decide (msg_sender env = p)) as [->|Hne].
      * rewrite mget_insert_eq. lia.
      * rewrite mget_insert_ne by assumption. lia.
    + cbn. lia.
    + intros t' Hex. cbn [logged tokenExists tokenToSME].
      assert (t <> t') as Hne.
      { intros ->. rewrite (acc_fresh _ _ _ _ _ _ _ Hff) in Hex. discriminate. }
      rewrite !mget_insert_ne by assumption. auto.
Qed.

(** X12. The ledger only grows.  Over any sequence of transactions each
    trail of the earlier state is a prefix of the same trail later, no
    counter decreases, and a tokenId that is marked used stays used and
    stays mapped to the same principal. *)
Theorem ledger_only_grows st st' :
  steps st st' ->
  (forall p, mget [] (auditTrails st) p `prefix_of` mget [] (auditTrails st') p) /\
  (forall p, mget 0 (transactionCounts st) p <= mget 0 (transactionCounts st') p) /\
  totalTransactions st <= totalTransactions st' /\
  (forall t, mget false (tokenExists st) t = true ->
     mget false (tokenExists st') t = true /\
     mget 0 (tokenToSME st') t = mget 0 (tokenToSME st) t).
Proof.
  induction 1 as [|st' env c _ (IH1 & IH2 & IH3 & IH4)].
  - repeat split; try reflexivity; try lia. assumption.
  - destruct (execute_append_only env c st') as (H1 & H2 & H3 & H4).
    split; [|split; [|split]].
    + intros p. etrans; [apply IH1|apply H1].
    + intros p. etrans; [apply IH2|apply H2].
    + lia.
    + intros t Hex. destruct (IH4 t Hex) as [Hex' Hto].
      destruct (H4 t Hex') as [Hex'' Hto']. split; [assumption|congruence].
Qed.

Lemma ledger_only_grows_witness :
  mget [] (auditTrails demo_logged) 5 `prefix_of`
  mget [] (auditTrails demo_deauthorized) 5.
Proof.
  apply (proj1 (ledger_only_grows demo_logged demo_deauthorized
                  (steps_step _ _ _ _ (steps_refl _)))).
Defined.




(** * Properties of the front-end helpers *)

(** ** Slices *)

Lemma slice_prefix s k : 0 <= k -> slice s 0 (Some k) = take (Z.to_nat k) s.
Proof.
  intros Hk. unfold slice, relative_index.
  replace (0 <? 0) with false by reflexivity.
  replace (k <? 0) with false by (symmetry; apply Z.ltb_ge; lia).
  rewrite (Z.min_l 0) by lia. change (Z.to_nat 0) with 0%nat.
  rewrite drop_0, Nat.sub_0_r.
  destruct (Z.le_ge_cases k (Z.of_nat (length s))) as [Hle|Hge].
  - rewrite Z.min_l by lia. reflexivity.
  - rewrite Z.min_r by lia. rewrite Nat2Z.id.
    rewrite !take_ge by lia. reflexivity.
Qed.

Lemma slice_suffix s k :
  0 < k -> slice s (- k) None = drop (length s - Z.to_nat k) s.
Proof.
  intros Hk. unfold slice, relative_index.
  replace (- k <? 0) with true by (symmetry; apply Z.ltb_lt; lia).
  replace (Z.to_nat (Z.max (Z.of_nat (length s) + - k) 0))
    with (length s - Z.to_nat k)%nat by lia.
  apply take_ge. rewrite length_drop. lia.
Qed.

Lemma slice_from_start s : slice s 0 None = s.
Proof.
  unfold slice, relative_index. replace (0 <? 0) with false by reflexivity.
  rewrite (Z.min_l 0) by lia. change (Z.to_nat 0) with 0%nat.
  rewrite drop_0. apply take_ge. lia.
Qed.

Lemma slice_drop_end s k :
  k < 0 -> slice s 0 (Some k) = take (length s - Z.to_nat (- k)) s.
Proof.
  intros Hk. unfold slice, relative_index.
  replace (0 <? 0) with false by reflexivity.
  replace (k <? 0) with true by (symmetry; apply Z.ltb_lt; lia).
  rewrite (Z.min_l 0) by lia. change (Z.to_nat 0) with 0%nat.
  rewrite drop_0. f_equal. lia.
Qed.

Lemma ellipsis_length : length ellipsis = 3%nat.
Proof. reflexivity. Qed.

(** ** Shortening an address *)

(** The two ends and the dots between them. *)
Lemma shorten_ends a s e :
  0 <= s -> 0 < e -> s + e < Z.of_nat (length a) ->
  slice a 0 (Some s) ++ ellipsis ++ slice a (- e) None =
    take (Z.to_nat s) a ++ ellipsis ++ drop (length a - Z.to_nat e) a /\
  Z.of_nat (length (take (Z.to_nat s) a ++ ellipsis
                      ++ drop (length a - Z.to_nat e) a)) = s + e + 3.
Proof.
  intros Hs He Hlen. rewrite slice_prefix, slice_suffix by lia.
  split; [reflexivity|].
  rewrite !length_app, length_take, length_drop, ellipsis_length. lia.
Qed.

(** Shortening the shortened form gives it back. *)
Lemma shorten_ends_again a s e :
  0 <= s -> 0 < e -> s + e < Z.of_nat (length a) ->
  let r := take (Z.to_nat s) a ++ ellipsis ++ drop (length a - Z.to_nat e) a in
  take (Z.to_nat s) r ++ ellipsis ++ drop (length r - Z.to_nat e) r = r.
Proof.
  intros Hs He Hlen r.
  assert (Hts : length (take (Z.to_nat s) a) = Z.to_nat s)
    by (rewrite length_take; lia).
  assert (Hde : length (drop (length a - Z.to_nat e) a) = Z.to_nat e)
    by (rewrite length_drop; lia).
  assert (Hr : length r = (Z.to_nat s + 3 + Z.to_nat e)%nat).
  { unfold r. rewrite !length_app, Hts, Hde, ellipsis_length. lia. }
  assert (H1 : take (Z.to_nat s) r = take (Z.to_nat s) a).
  { unfold r. rewrite take_app_length'; [reflexivity|symmetry; exact Hts]. }
  assert (H2 : drop (length r - Z.to_nat e) r = drop (length a - Z.to_nat e) a).
  { rewrite Hr. replace (Z.to_nat s + 3 + Z.to_nat e - Z.to_nat e)%nat
      with (Z.to_nat s + 3)%nat by lia.
    unfold r. rewrite app_assoc. apply drop_app_length'.
    rewrite length_app, Hts, ellipsis_length. reflexivity. }
  rewrite H1, H2. reflexivity.
Qed.

(** X14. [shortenAddress] returns an address of at most
    [startLength + endLength] code units unchanged.  For a longer one, with
    [startLength >= 0] and [endLength > 0], it returns the first
    [startLength] units, three dots and the last [endLength] units, so
    [startLength + endLength + 3] units, which is more than the address has
    when the address is only one or two units too long.  With
    [endLength = 0] the dots are followed by the whole address. *)
Theorem shortenAddress_shape address s e :
  (Z.of_nat (length address) <= s + e ->
   shortenAddress address (Some s) (Some e) = address) /\
  (0 <= s -> 0 < e -> s + e < Z.of_nat (length address) ->
   shortenAddress address (Some s) (Some e) =
     take (Z.to_nat s) address ++ ellipsis
       ++ drop (length address - Z.to_nat e) address /\
   Z.of_nat (length (shortenAddress address (Some s) (Some e))) = s + e + 3) /\
  (0 <= s -> s < Z.of_nat (length address) ->
   shortenAddress address (Some s) (Some 0) =
     take (Z.to_nat s) address ++ ellipsis ++ address).
Proof.
  unfold shortenAddress. cbn [from_option]. unfold id. split; [|split].
  - intros Hlen. case_bool_decide as Hnil; [symmetry; exact Hnil|].
    replace (Z.of_nat (length address) <=? s + e) with true
      by (symmetry; apply Z.leb_le; lia).
    reflexivity.
  - intros Hs He Hlen.
    rewrite bool_decide_eq_false_2 by (intros ->; cbn in Hlen; lia).
    replace (Z.of_nat (length address) <=? s + e) with false
      by (symmetry; apply Z.leb_gt; lia).
    destruct (shorten_ends address s e Hs He Hlen) as [-> Hl]. auto.
  - intros Hs Hlen.
    rewrite bool_decide_eq_false_2 by (intros ->; cbn in Hlen; lia).
    replace (Z.of_nat (length address) <=? s + 0) with false
      by (symmetry; apply Z.leb_gt; lia).
    rewrite slice_prefix by lia. cbn [Z.opp]. rewrite slice_from_start.
    reflexivity.
Qed.

(** Eleven code units become thirteen. *)
Lemma shortenAddress_shape_witness :
  Z.of_nat (length (shortenAddress (list_ascii_of_string "abcdefghijk")
                      (Some 6) (Some 4))) = 6 + 4 + 3.
Proof.
  apply (proj1 (proj2 (shortenAddress_shape (list_ascii_of_string "abcdefghijk")
                         6 4))); cbn; lia.
Defined.

(** The code that [shortenAddress] and [formatBlockchainHash] share after
    their test for the empty string, applied twice. *)
Lemma shorten_twice a s e :
  0 <= s -> 0 < e ->
  let short x :=
    if Z.of_nat (length x) <=? s + e then x
    else slice x 0 (Some s) ++ ellipsis ++ slice x (- e) None in
  short (short a) = short a /\ (a <> [] -> short a <> []).
Proof.
  intros Hs He short. unfold short.
  destruct (Z.leb_spec (Z.of_nat (length a)) (s + e)) as [Hle|Hgt].
  - replace (Z.of_nat (length a) <=? s + e) with true
      by (symmetry; apply Z.leb_le; lia).
    split; [reflexivity|auto].
  - destruct (shorten_ends a s e Hs He Hgt) as [Hshape Hlen].
    rewrite Hshape. set (r := take _ _ ++ _) in *.
    replace (Z.of_nat (length r) <=? s + e) with false
      by (symmetry; apply Z.leb_gt; lia).
    rewrite slice_prefix, slice_suffix by lia.
    split; [apply (shorten_ends_again a s e Hs He Hgt)|].
    intros _ Hnil. rewrite Hnil in Hlen. cbn in Hlen. lia.
Qed.

(** X15. [shortenAddress] is idempotent for [startLength >= 0] and
    [endLength > 0]: shortening a shortened address changes nothing. *)
Theorem shortenAddress_idempotent address s e :
  0 <= s -> 0 < e ->
  shortenAddress (shortenAddress address (Some s) (Some e)) (Some s) (Some e) =
  shortenAddress address (Some s) (Some e).
Proof.
  intros Hs He. destruct (shorten_twice address s e Hs He) as [Htwice Hne].
  cbv zeta in Htwice, Hne.
  unfold shortenAddress. cbn [from_option]. unfold id.
  destruct (bool_decide_reflect (address = [])) as [->|Hnil].
  - rewrite bool_decide_eq_true_2 by reflexivity. reflexivity.
  - rewrite (bool_decide_eq_false_2 _ (Hne Hnil)). exact Htwice.
Qed.

Lemma shortenAddress_idempotent_witness :
  shortenAddress (shortenAddress (list_ascii_of_string "abcdefghijk")
                    (Some 6) (Some 4)) (Some 6) (Some 4) =
  shortenAddress (list_ascii_of_string "abcdefghijk") (Some 6) (Some 4).
Proof. apply shortenAddress_idempotent; lia. Defined.

(** ** Truncating a text *)

(** X16. [truncateText] returns a text of at most [maxLength] code units
    unchanged; a longer one is cut to its first [maxLength] units followed
    by three dots, so the result has [maxLength + 3] units and is longer
    than the text when the text is one or two units too long.  For
    [maxLength >= 0] truncating twice is truncating once.  A negative
    [maxLength] cuts that many units off the end of a non-empty text before
    the dots. *)
Theorem truncateText_shape text m :
  (Z.of_nat (length text) <= m -> truncateText text (Some m) = text) /\
  (0 <= m -> m < Z.of_nat (length text) ->
   truncateText text (Some m) = take (Z.to_nat m) text ++ ellipsis /\
   Z.of_nat (length (truncateText text (Some m))) = m + 3) /\
  (0 <= m ->
   truncateText (truncateText text (Some m)) (Some m) = truncateText text (Some m)) /\
  (m < 0 -> text <> [] ->
   truncateText text (Some m) =
     take (length text - Z.to_nat (- m)) text ++ ellipsis).
Proof.
  assert (Hshort : forall t, Z.of_nat (length t) <= m ->
                             truncateText t (Some m) = t).
  { intros t Hlen. unfold truncateText. cbn [from_option]. unfold id.
    case_bool_decide as Hnil; [symmetry; exact Hnil|].
    replace (Z.of_nat (length t) <=? m) with true
      by (symmetry; apply Z.leb_le; lia).
    reflexivity. }
  assert (Hlong : forall t, 0 <= m -> m < Z.of_nat (length t) ->
                            truncateText t (Some m) = take (Z.to_nat m) t ++ ellipsis).
  { intros t Hm Hlen. unfold truncateText. cbn [from_option]. unfold id.
    rewrite bool_decide_eq_false_2 by (intros ->; cbn in Hlen; lia).
    replace (Z.of_nat (length t) <=? m) with false
      by (symmetry; apply Z.leb_gt; lia).
    rewrite slice_prefix by lia. reflexivity. }
  split; [apply Hshort|]. split; [|split].
  - intros Hm Hlen. rewrite (Hlong _ Hm Hlen). split; [reflexivity|].
    rewrite length_app, length_take, ellipsis_length. lia.
  - intros Hm.
    destruct (Z.le_gt_cases (Z.of_nat (length text)) m) as [Hle|Hgt].
    + rewrite !(Hshort _ Hle). reflexivity.
    + rewrite (Hlong _ Hm Hgt).
      assert (Hl : length (take (Z.to_nat m) text) = Z.to_nat m)
        by (rewrite length_take; lia).
      rewrite Hlong; [|exact Hm|rewrite length_app, Hl, ellipsis_length; lia].
      rewrite take_app_length'; [reflexivity|symmetry; exact Hl].
  - intros Hm Hnil. unfold truncateText. cbn [from_option]. unfold id.
    rewrite bool_decide_eq_false_2 by assumption.
    replace (Z.of_nat (length text) <=? m) with false
      by (symmetry; apply Z.leb_gt; lia).
    rewrite slice_drop_end by lia. reflexivity.
Qed.

Lemma truncateText_shape_witness :
  truncateText (list_ascii_of_string "hello world") (Some 5) =
  list_ascii_of_string "hello...".
Proof.
  apply (proj1 (proj1 (proj2 (truncateText_shape
           (list_ascii_of_string "hello world") 5)) ltac:(lia) ltac:(cbn; lia))).
Defined.

(** ** Formatting a hash *)

(** X17. [formatBlockchainHash] never returns the empty string: an empty
    hash gives "N/A".  On a non-empty hash it is [shortenAddress] with the
    same two lengths, and with [startLength >= 0], [endLength > 0] and
    [startLength + endLength >= 3] formatting a formatted hash changes
    nothing. *)
Theorem formatBlockchainHash_shape hash s e :
  formatBlockchainHash hash (Some s) (Some e) <> [] /\
  formatBlockchainHash [] (Some s) (Some e) = list_ascii_of_string "N/A" /\
  (hash <> [] ->
   formatBlockchainHash hash (Some s) (Some e) =
     shortenAddress hash (Some s) (Some e)) /\
  (0 <= s -> 0 < e -> 3 <= s + e ->
   formatBlockchainHash (formatBlockchainHash hash (Some s) (Some e))
     (Some s) (Some e) = formatBlockchainHash hash (Some s) (Some e)).
Proof.
  assert (Hsame : forall x, x <> [] ->
    formatBlockchainHash x (Some s) (Some e) = shortenAddress x (Some s) (Some e)).
  { intros x Hx. unfold formatBlockchainHash, shortenAddress.
    rewrite !bool_decide_eq_false_2 by assumption. reflexivity. }
  assert (Hne : formatBlockchainHash hash (Some s) (Some e) <> []).
  { unfold formatBlockchainHash. cbn [from_option]. unfold id.
    case_bool_decide as Hnil; [discriminate|].
    destruct (Z.of_nat (length hash) <=? s + e); [assumption|].
    intros Happ. apply (f_equal length) in Happ.
    rewrite !length_app, ellipsis_length in Happ. cbn in Happ. lia. }
  split; [exact Hne|]. split; [reflexivity|]. split; [apply Hsame|].
  intros Hs He Hse.
  destruct (decide (hash = [])) as [->|Hnil].
  - unfold formatBlockchainHash at 2. cbn [from_option].
    rewrite bool_decide_eq_true_2 by reflexivity.
    unfold formatBlockchainHash. cbn [from_option]. unfold id.
    rewrite bool_decide_eq_false_2 by discriminate.
    replace (Z.of_nat (length (list_ascii_of_string "N/A")) <=? s + e) with true
      by (symmetry; apply Z.leb_le; cbn; lia).
    reflexivity.
  - destruct (shorten_twice hash s e Hs He) as [Htwice Hne'].
    cbv zeta in Htwice, Hne'.
    unfold formatBlockchainHash. cbn [from_option]. unfold id.
    rewrite (bool_decide_eq_false_2 _ Hnil).
    rewrite (bool_decide_eq_false_2 _ (Hne' Hnil)). exact Htwice.
Qed.

Lemma formatBlockchainHash_shape_witness :
  formatBlockchainHash (formatBlockchainHash [] (Some 10) (Some 8))
    (Some 10) (Some 8) = formatBlockchainHash [] (Some 10) (Some 8).
Proof.
  apply (proj2 (proj2 (proj2 (formatBlockchainHash_shape [] 10 8)))); lia.
Defined.

(** ** Valid addresses *)

Lemma isValidEthereumAddress_inv a :
  isValidEthereumAddress a = true ->
  exists digits, a = "0"%char :: "x"%char :: digits /\
    length digits = 40%nat /\ forallb is_hex_digit digits = true.
Proof.
  unfold isValidEthereumAddress. case_bool_decide; [discriminate|].
  destruct a as [|c0 [|c1 digits]]; [discriminate| |].
  { destruct c0 as [[] [] [] [] [] [] [] []]; discriminate. }
  destruct (ascii_dec c0 "0") as [->|Hc0];
    [|destruct c0 as [[] [] [] [] [] [] [] []]; try discriminate; congruence].
  destruct (ascii_dec c1 "x") as [->|Hc1];
    [|destruct c1 as [[] [] [] [] [] [] [] []]; try discriminate; congruence].
  intros Hv. apply andb_true_iff in Hv as [Hl Hh].
  apply bool_decide_eq_true in Hl. eauto.
Qed.

Lemma lower_unit_hex c : is_hex_digit c = true -> is_hex_digit (lower_unit c) = true.
Proof.
  destruct c as [[] [] [] [] [] [] [] []]; vm_compute; congruence.
Qed.

(** X18. An address [isValidEthereumAddress] accepts has 42 code units and
    stays accepted when it is lower-cased (as the registration form does
    before comparing it with the connected account); [shortenAddress] with
    its default lengths shows it as its first six units, three dots and its
    last four units, 13 units in all, still starting with "0x". *)
Theorem valid_address_display a :
  isValidEthereumAddress a = true ->
  length a = 42%nat /\
  isValidEthereumAddress (toLowerCase a) = true /\
  shortenAddress a None None = take 6 a ++ ellipsis ++ drop 38 a /\
  length (shortenAddress a None None) = 13%nat /\
  take 2 (shortenAddress a None None) = list_ascii_of_string "0x".
Proof.
  intros Hv. destruct (isValidEthereumAddress_inv _ Hv) as (digits & -> & Hl & Hh).
  assert (Hlen : length ("0"%char :: "x"%char :: digits) = 42%nat)
    by (cbn; lia).
  split; [exact Hlen|]. split.
  - unfold isValidEthereumAddress, toLowerCase. cbn [map].
    rewrite bool_decide_eq_false_2 by discriminate.
    change (lower_unit "0") with "0"%char. change (lower_unit "x") with "x"%char.
    rewrite length_map, (bool_decide_eq_true_2 _ Hl). cbn [andb].
    rewrite forallb_forall in Hh. apply forallb_forall.
    intros c Hc. apply in_map_iff in Hc as (c' & <- & Hc').
    apply lower_unit_hex, Hh, Hc'.
  - destruct (shorten_ends ("0"%char :: "x"%char :: digits) 6 4)
      as [Hshape Hsl]; try lia.
    assert (Hs : shortenAddress ("0"%char :: "x"%char :: digits) None None =
                 take (Z.to_nat 6) ("0"%char :: "x"%char :: digits) ++ ellipsis
                   ++ drop (length ("0"%char :: "x"%char :: digits) - Z.to_nat 4)
                        ("0"%char :: "x"%char :: digits)).
    { unfold shortenAddress. cbn [from_option]. unfold id.
      rewrite bool_decide_eq_false_2 by discriminate.
      replace (Z.of_nat (length ("0"%char :: "x"%char :: digits)) <=? 6 + 4)
        with false by (symmetry; apply Z.leb_gt; lia).
      exact Hshape. }
    rewrite Hs, Hlen. change (Z.to_nat 6) with 6%nat.
    change (42 - Z.to_nat 4)%nat with 38%nat.
    split; [reflexivity|]. split.
    + rewrite Hlen in Hsl. change (Z.to_nat 6) with 6%nat in Hsl.
      change (42 - Z.to_nat 4)%nat with 38%nat in Hsl. lia.
    + destruct digits as [|d1 [|d2 [|d3 [|d4 rest]]]]; try (cbn in Hl; lia).
      reflexivity.
Qed.

Lemma valid_address_display_witness :
  length (shortenAddress
            (list_ascii_of_string "0x70997970C51812dc3A010C7d01b50e0d17dc79C8")
            None None) = 13%nat.
Proof.
  apply (valid_address_display
           (list_ascii_of_string "0x70997970C51812dc3A010C7d01b50e0d17dc79C8")).
  reflexivity.
Defined.

(** ** File types *)

(** The first segment has no separator, and is the whole string when it is
    the only segment. *)
Lemma split_head sep s :
  exists seg segs,
    split sep s = seg :: segs /\ (sep ∉ seg) /\ (segs = [] -> s = seg).
Proof.
  induction s as [|c rest (seg & segs & Hsplit & Hseg & Hone)]; cbn [split].
  - exists [], []. split; [reflexivity|]. split; [apply not_elem_of_nil|auto].
  - case_bool_decide as Hc.
    + exists [], (split sep rest). split; [reflexivity|].
      split; [apply not_elem_of_nil|]. rewrite Hsplit. discriminate.
    + rewrite Hsplit. exists (c :: seg), segs. split; [reflexivity|].
      split; [apply not_elem_of_cons; split; [congruence|assumption]|].
      intros Hnil. rewrite (Hone Hnil). reflexivity.
Qed.

Lemma split_no_sep sep s : sep ∉ s -> split sep s = [s].
Proof.
  induction s as [|c rest IH]; intros Hs; [reflexivity|].
  apply not_elem_of_cons in Hs as [Hc Hrest]. cbn [split].
  rewrite bool_decide_eq_false_2 by congruence. rewrite IH by assumption.
  reflexivity.
Qed.

(** What [split] then [pop] returns: what follows the last separator. *)
Lemma split_pop_after_last sep stem ext :
  sep ∉ ext -> pop (split sep (stem ++ [sep] ++ ext)) = Some ext.
Proof.
  intros Hext. unfold pop. induction stem as [|c stem IH].
  - cbn [app split]. rewrite bool_decide_eq_true_2 by reflexivity.
    rewrite split_no_sep by assumption. reflexivity.
  - change ((c :: stem) ++ [sep] ++ ext) with (c :: (stem ++ [sep] ++ ext)).
    cbn [split].
    destruct (split_head sep (stem ++ [sep] ++ ext))
      as (seg & segs & Hsplit & Hseg & Hone).
    rewrite Hsplit in IH |- *.
    assert (Hsegs : segs <> []).
    { intros Hnil. apply Hseg. rewrite <- (Hone Hnil).
      apply elem_of_app. right. left. }
    destruct segs as [|seg' segs]; [contradiction|].
    case_bool_decide; rewrite !last_cons_cons; rewrite last_cons_cons in IH;
      exact IH.
Qed.

Lemma isAllowedFileType_no_dot f T :
  f <> [] -> "."%char ∉ f ->
  isAllowedFileType f (Some T) = Some (bool_decide (toLowerCase f ∈ T)).
Proof.
  intros Hf Hdot. unfold isAllowedFileType. cbn [from_option].
  rewrite bool_decide_eq_false_2 by assumption.
  rewrite split_no_sep by assumption. reflexivity.
Qed.

Lemma isAllowedFileType_after_dot stem ext T :
  "."%char ∉ ext ->
  isAllowedFileType (stem ++ ["."%char] ++ ext) (Some T) =
    Some (bool_decide (toLowerCase ext ∈ T)).
Proof.
  intros Hdot. unfold isAllowedFileType. cbn [from_option].
  rewrite bool_decide_eq_false_2 by (destruct stem; discriminate).
  rewrite split_pop_after_last by assumption. reflexivity.
Qed.

Lemma isAllowedFileType_total f T : exists b, isAllowedFileType f (Some T) = Some b.
Proof.
  unfold isAllowedFileType. cbn [from_option].
  case_bool_decide; [eexists; reflexivity|].
  destruct (split_head "." f) as (seg & segs & -> & _).
  unfold pop. destruct (last (seg :: segs)) eqn:Hlast; [eexists; reflexivity|].
  apply last_None in Hlast. discriminate.
Qed.

(** X19. [isAllowedFileType] never fails and answers false for the empty
    name.  The extension it looks up is what follows the last dot, in
    lower case: for a name with no dot it is the whole name, so a file
    whose name is an allowed type is accepted; for a name ending in a dot
    it is the empty string. *)
Theorem allowed_file_extension f T :
  (exists b, isAllowedFileType f (Some T) = Some b) /\
  isAllowedFileType [] (Some T) = Some false /\
  (f <> [] -> "."%char ∉ f ->
   isAllowedFileType f (Some T) = Some (bool_decide (toLowerCase f ∈ T))) /\
  (forall stem ext, f = stem ++ ["."%char] ++ ext -> "."%char ∉ ext ->
   isAllowedFileType f (Some T) = Some (bool_decide (toLowerCase ext ∈ T))) /\
  (forall stem, f = stem ++ ["."%char] ->
   isAllowedFileType f (Some T) = Some (bool_decide ([] ∈ T))).
Proof.
  split; [|split; [reflexivity|split; [apply isAllowedFileType_no_dot|split]]].
  - apply isAllowedFileType_total.
  - intros stem ext -> Hdot. apply isAllowedFileType_after_dot. exact Hdot.
  - intros stem ->.
    apply (isAllowedFileType_after_dot stem [] T). apply not_elem_of_nil.
Qed.

(** A file named "PDF", without a dot, passes the default list. *)
Lemma allowed_file_extension_witness :
  isAllowedFileType (list_ascii_of_string "PDF") (Some default_allowedTypes) =
    Some true.
Proof.
  apply (proj1 (proj2 (proj2 (allowed_file_extension (list_ascii_of_string "PDF")
           default_allowedTypes)))).
  - discriminate.
  - apply (bool_decide_unpack _). vm_compute. exact I.
Defined.

Lemma lower_unit_not_capital c : is_capital (lower_unit c) = false.
Proof. destruct c as [[] [] [] [] [] [] [] []]; vm_compute; reflexivity. Qed.

Lemma toLowerCase_no_capital s c : c ∈ toLowerCase s -> is_capital c = false.
Proof.
  unfold toLowerCase. intros Hc. apply list_elem_of_fmap in Hc as (c' & -> & _).
  apply lower_unit_not_capital.
Qed.

(** X20. The comparison lowers the extension of the file but not the
    allowed types: an allowed type that contains a capital letter A to Z
    matches no file name, the answer is the same without it. *)
Theorem capital_type_never_matches f t T :
  (exists c, c ∈ t /\ is_capital c = true) ->
  isAllowedFileType f (Some (t :: T)) = isAllowedFileType f (Some T) /\
  isAllowedFileType f (Some [t]) = Some false.
Proof.
  intros (c & Hc & Hcap).
  assert (Hext : forall ext, toLowerCase ext <> t).
  { intros ext Heq. rewrite <- Heq in Hc.
    apply toLowerCase_no_capital in Hc. congruence. }
  assert (Hdrop : forall T', isAllowedFileType f (Some (t :: T')) =
                             isAllowedFileType f (Some T')).
  { intros T'. unfold isAllowedFileType. cbn [from_option].
    case_bool_decide; [reflexivity|].
    destruct (pop (split "." f)) as [segment|]; [|reflexivity].
    cbv zeta. f_equal. apply bool_decide_ext. split.
    + intros Hin. apply elem_of_cons in Hin as [Heq|Hin]; [|exact Hin].
      exfalso. eapply Hext. exact Heq.
    + intros Hin. right. exact Hin. }
  split; [apply Hdrop|].
  rewrite Hdrop. destruct (isAllowedFileType_total f []) as [b Hb].
  rewrite Hb. f_equal. revert Hb.
  unfold isAllowedFileType. cbn [from_option].
  case_bool_decide; [congruence|].
  destruct (pop (split "." f)) as [segment|]; [|discriminate].
  cbv zeta. rewrite bool_decide_eq_false_2 by apply not_elem_of_nil. congruence.
Qed.

Lemma capital_type_never_matches_witness :
  isAllowedFileType (list_ascii_of_string "scan.PDF")
    (Some [list_ascii_of_string "PDF"]) = Some false.
Proof.
  refine (proj2 (capital_type_never_matches (list_ascii_of_string "scan.PDF")
                   (list_ascii_of_string "PDF") [] _)).
  exists "P"%char. split; [left|reflexivity].
Defined.

(** ** Pagination *)

Lemma ceil_div_bounds a b :
  0 < b -> a <= ceil_div a b * b < a + b.
Proof.
  intros Hb. unfold ceil_div.
  pose proof (Z.mul_div_le (- a) b Hb).
  pose proof (Z.mul_succ_div_gt (- a) b Hb).
  nia.
Qed.

(** X21. For a positive page size and a non-negative number of items within
    the safe integers, [calculatePagination] gives the least number of
    pages that hold the items; a page [1 <= currentPage <= totalPages] is
    the non-empty range from [(currentPage - 1) * itemsPerPage] up to the
    smaller of [currentPage * itemsPerPage] and [totalItems]; [hasNext]
    says that items follow the range and [isLastPage] that the range ends
    with the last item; a page before the last holds [itemsPerPage] items
    and the next page starts where it ends. *)
Theorem pagination_covers_items k total per pg :
  0 < per -> 0 <= total -> total + per <= MAX_SAFE_INTEGER ->
  calculatePagination k total per = Some pg ->
  (total <= totalPages pg * per < total + per) /\
  (totalPages pg = 0 <-> total = 0) /\
  (1 <= k <= totalPages pg ->
   startIndex pg = (k - 1) * per /\
   endIndex pg = Z.min (k * per) total /\
   startIndex pg < endIndex pg /\
   (hasNext pg = true <-> endIndex pg < total) /\
   (isLastPage pg = true <-> endIndex pg = total) /\
   (k < totalPages pg ->
    endIndex pg - startIndex pg = per /\
    forall pg', calculatePagination (k + 1) total per = Some pg' ->
      startIndex pg' = endIndex pg)).
Proof.
  intros Hper Htotal _ Hpg. unfold calculatePagination in Hpg.
  rewrite bool_decide_eq_false_2 in Hpg by lia. injection Hpg as <-.
  cbn [totalPages startIndex endIndex hasNext isLastPage].
  pose proof (ceil_div_bounds total per Hper) as Hceil.
  set (n := ceil_div total per) in *.
  split; [exact Hceil|]. split; [split; intros; nia|].
  intros Hk.
  split; [reflexivity|]. split; [f_equal; lia|].
  split; [apply Z.min_glb_lt; nia|].
  split.
  { rewrite Z.ltb_lt. split; intros H.
    - apply Z.min_lt_iff. left. nia.
    - apply Z.min_lt_iff in H as [H|H]; [nia|lia]. }
  split.
  { rewrite bool_decide_eq_true. split; intros H.
    - apply Z.min_r. nia.
    - destruct (Z.eq_dec k n) as [|Hne]; [assumption|exfalso].
      assert (Z.min ((k - 1) * per + per) total = (k - 1) * per + per)
        by (apply Z.min_l; nia).
      nia. }
  intros Hlt. rewrite Z.min_l by nia. split; [lia|].
  intros pg' Hpg'. unfold calculatePagination in Hpg'.
  rewrite bool_decide_eq_false_2 in Hpg' by lia. injection Hpg' as <-.
  cbn [startIndex]. lia.
Qed.

Lemma pagination_covers_items_witness :
  exists pg, calculatePagination 3 25 10 = Some pg /\
    startIndex pg = 20 /\ endIndex pg = 25 /\ totalPages pg = 3.
Proof.
  eexists. split; [reflexivity|].
  destruct (pagination_covers_items 3 25 10 _ ltac:(lia) ltac:(lia)
              ltac:(vm_compute; discriminate) eq_refl) as (_ & _ & Hpage).
  destruct (Hpage ltac:(split; vm_compute; discriminate)) as (Hs & He & _).
  split; [exact Hs|]. split; [exact He|reflexivity].
Defined.

(** X22. The edges of [calculatePagination] for a positive page size within
    the safe integers.  With no items there are zero pages, and page 1 is
    the first page but not the last page, has no next page and is the empty
    range at 0.  With a non-negative number of items, a page after the last
    one has no next page, is not the last page, and its range ends at
    [totalItems], at or before its start. *)
Theorem pagination_edges k total per :
  (0 < per -> per <= MAX_SAFE_INTEGER ->
   calculatePagination 1 0 per =
     Some (mkPagination 1 0 0 per 0 0 false false true false)) /\
  (0 < per -> 0 <= total -> k * per <= MAX_SAFE_INTEGER ->
   forall pg, calculatePagination k total per = Some pg ->
     totalPages pg < k ->
     hasNext pg = false /\ isLastPage pg = false /\
     endIndex pg = total /\ endIndex pg <= startIndex pg).
Proof.
  split.
  - intros Hper _. unfold calculatePagination.
    rewrite bool_decide_eq_false_2 by lia.
    assert (Hn : ceil_div 0 per = 0).
    { pose proof (ceil_div_bounds 0 per Hper). nia. }
    rewrite Hn. cbn -[Z.mul]. rewrite Z.min_r by lia. reflexivity.
  - intros Hper Htotal _ pg Hpg Hlast. unfold calculatePagination in Hpg.
    rewrite bool_decide_eq_false_2 in Hpg by lia. injection Hpg as <-.
    cbn [totalPages startIndex endIndex hasNext isLastPage] in *.
    pose proof (ceil_div_bounds total per Hper) as Hceil.
    set (n := ceil_div total per) in *.
    split; [apply Z.ltb_ge; lia|].
    split; [apply bool_decide_eq_false_2; lia|].
    assert (Hmin : Z.min ((k - 1) * per + per) total = total)
      by (apply Z.min_r; nia).
    rewrite Hmin. split; [reflexivity|nia].
Qed.

Lemma pagination_edges_witness :
  exists pg, calculatePagination 5 25 10 = Some pg /\
    endIndex pg = 25 /\ startIndex pg = 40 /\ hasNext pg = false.
Proof.
  eexists. split; [reflexivity|].
  destruct (proj2 (pagination_edges 5 25 10) ltac:(lia) ltac:(lia)
              ltac:(vm_compute; discriminate) _ eq_refl
              ltac:(vm_compute; reflexivity))
    as (Hn & _ & He & _).
  split; [exact He|]. split; [reflexivity|exact Hn].
Defined.

(** ** The filters of the audit trail table *)

Lemma lower_unit_idem c : lower_unit (lower_unit c) = lower_unit c.
Proof. destruct c as [[] [] [] [] [] [] [] []]; vm_compute; reflexivity. Qed.

Lemma toLowerCase_idem s : toLowerCase (toLowerCase s) = toLowerCase s.
Proof.
  unfold toLowerCase. rewrite map_map. apply map_ext. intros c.
  apply lower_unit_idem.
Qed.

Lemma toLowerCase_nil s : toLowerCase s = [] <-> s = [].
Proof. destruct s; split; intros H; try reflexivity; discriminate. Qed.

Lemma lfilter_sublist {A} (f : A -> bool) l : List.filter f l `sublist_of` l.
Proof.
  induction l as [|x l IH]; cbn; [constructor|].
  destruct (f x); [apply sublist_skip|apply sublist_cons]; exact IH.
Qed.

Lemma lfilter_filter {A} (f g : A -> bool) l :
  List.filter g (List.filter f l) = List.filter (fun x => f x && g x) l.
Proof.
  induction l as [|x l IH]; cbn; [reflexivity|].
  destruct (f x); cbn; [destruct (g x); rewrite IH; reflexivity|exact IH].
Qed.

Lemma lfilter_true {A} (l : list A) : List.filter (fun _ => true) l = l.
Proof. induction l as [|x l IH]; cbn; [reflexivity|rewrite IH; reflexivity]. Qed.

(** The three filters as one test. *)
Lemma getFilteredTransactions_filter txs term ty st :
  getFilteredTransactions txs term ty st =
  List.filter (fun tx =>
    (bool_decide (term = []) || matches_search term tx)
    && (bool_decide (ty = []) || bool_decide (transaction_type tx = ty))
    && (bool_decide (st = []) || bool_decide (verification_status tx = st))) txs.
Proof.
  unfold getFilteredTransactions. cbv zeta.
  rewrite <- !lfilter_filter.
  destruct (bool_decide (term = [])), (bool_decide (ty = [])),
    (bool_decide (st = [])); cbn [orb]; rewrite ?lfilter_true; reflexivity.
Qed.

Lemma starts_with_refl s : starts_with s s = true.
Proof.
  induction s as [|c s IH]; cbn; [reflexivity|].
  rewrite bool_decide_eq_true_2 by reflexivity. exact IH.
Qed.

Lemma includes_refl s : includes s s = true.
Proof. destruct s; cbn; [reflexivity|]. rewrite starts_with_refl.
  rewrite bool_decide_eq_true_2 by reflexivity. reflexivity. Qed.

(** X23. [getFilteredTransactions] keeps rows in their order and drops the
    others; with the three criteria empty it returns every row; the search
    does not depend on the case of the search term; filtering the filtered
    rows again with the same criteria changes nothing; and a search for a
    token id, in any case, keeps the row with that token id. *)
Theorem filtered_transactions txs term ty st :
  getFilteredTransactions txs term ty st `sublist_of` txs /\
  getFilteredTransactions txs [] [] [] = txs /\
  getFilteredTransactions txs (toLowerCase term) ty st =
    getFilteredTransactions txs term ty st /\
  getFilteredTransactions (getFilteredTransactions txs term ty st) term ty st =
    getFilteredTransactions txs term ty st /\
  (forall tx, In tx txs -> toLowerCase (token_id tx) = toLowerCase term ->
     In tx (getFilteredTransactions txs term [] [])).
Proof.
  split; [|split; [|split; [|split]]];
    [| | | |intros tx Hin Htok; rewrite getFilteredTransactions_filter;
            apply List.filter_In; split; [exact Hin|];
            unfold matches_search; rewrite Htok, includes_refl;
            cbn; rewrite orb_true_r; reflexivity].
  - rewrite getFilteredTransactions_filter. apply lfilter_sublist.
  - reflexivity.
  - rewrite !getFilteredTransactions_filter. apply List.filter_ext. intros tx.
    f_equal. f_equal. f_equal.
    + apply bool_decide_ext. apply toLowerCase_nil.
    + unfold matches_search. rewrite toLowerCase_idem. reflexivity.
  - rewrite !getFilteredTransactions_filter, lfilter_filter.
    apply List.filter_ext. intros tx. apply andb_diag.
Qed.

Lemma filtered_transactions_witness :
  In (mkRow (list_ascii_of_string "TXN_001") None
        (list_ascii_of_string "PAYMENT") (list_ascii_of_string "verified"))
     (getFilteredTransactions
        [mkRow (list_ascii_of_string "TXN_001") None
           (list_ascii_of_string "PAYMENT") (list_ascii_of_string "verified")]
        (list_ascii_of_string "txn_001") [] []).
Proof.
  apply (proj2 (proj2 (proj2 (proj2 (filtered_transactions
           [mkRow (list_ascii_of_string "TXN_001") None
              (list_ascii_of_string "PAYMENT") (list_ascii_of_string "verified")]
           (list_ascii_of_string "txn_001") [] []))))).
  - left. reflexivity.
  - reflexivity.
Defined.
